(** * TETFLIP simulation kernel: mesh, particle set, pressure solver, simulator

    A shallow embedding of the JavaScript sources
    - [src/mesh.js]            (class [TetrahedralMesh]),
    - the particle file        (class [ParticleSystem]),
    - the pressure solver file (class [PressureSolver]),
    - the simulator file       (class [TetFlipSimulator]).

    Conventions of the embedding.
    - A JavaScript number that holds a measurement is an exact rational
      ([Qc], canonical rationals, so that equality is Leibniz equality).
      Rounding to 32-bit floats when a value is stored in a [Float32Array]
      is not modelled: every statement below is one of exact arithmetic.
    - A typed array is a [list]; an element read is a list lookup, an
      element write is stdpp's list insert, which like a typed array
      ignores a write past the end.  A read past the end yields
      [undefined] in JavaScript; the embedding reads [0] there and the
      theorems that depend on reads assume the buffers are large enough.
    - [Uint32Array] elements are [N] reduced modulo [2^32].
    - A method that can throw or write to the console runs in the monad
      [JS]: a console log together with a returned value or a thrown
      error.
    - Objects are modelled from the point where their [initialize()] has
      run, as the simulator's own [initialize()] does before any other
      method is called: buffers are arrays, never [null]. *)

From Stdlib Require Import QArith Qcanon Qcabs.
From stdpp Require Import base numbers list strings.

Local Open Scope Qc_scope.

(** ** JavaScript values, typed arrays and effects *)

Module Js.

Abbreviation num := Qc (only parsing).

Definition of_nat (n : nat) : num := Qc_of_Z (Z.of_nat n).
Definition of_N (n : N) : num := Qc_of_Z (Z.of_N n).

(** Decimal constants that occur in the sources. *)
Definition c_0_1 : num := Q2Qc (1 # 10).            (* 0.1   *)
Definition c_0_25 : num := Q2Qc (1 # 4).            (* 0.25  *)
Definition c_0_3 : num := Q2Qc (3 # 10).            (* 0.3   *)
Definition c_6 : num := Qc_of_Z 6.                  (* 6.0   *)
Definition c_1em10 : num := Q2Qc (1 # 10000000000). (* 1e-10 *)
Definition c_1em4 : num := Q2Qc (1 # 10000).        (* 1e-4  *)

Abbreviation vec3 := (Qc * Qc * Qc)%type (only parsing).

(** [a[i]] on a [Float32Array]. *)
Definition rd (a : list num) (i : nat) : num := default 0 (a !! i).

(** [a[i]] on a [Uint32Array]. *)
Definition rdN (a : list N) (i : nat) : N := default 0%N (a !! i).

(** [a[i] = v]: stdpp's [<[i:=v]> a], a no-op when [i] is out of range. *)
Definition wr (a : list num) (i : nat) (v : num) : list num := <[i:=v]> a.

(** The three entries of particle slot [s] of a position or velocity
    buffer, as far as they exist. *)
Definition slot (a : list num) (s : nat) : option num * option num * option num :=
  (a !! (s * 3)%nat, a !! (s * 3 + 1)%nat, a !! (s * 3 + 2)%nat).

(** [new Uint32Array(values)]: every entry wraps modulo [2^32]. *)
Definition toUint32 (n : N) : N := (n mod 2 ^ 32)%N.

Definition leb (x y : num) : bool := bool_decide (x ≤ y).
Definition ltb (x y : num) : bool := bool_decide (x < y).

(** [Math.max] *)
Definition max (x y : num) : num := if ltb x y then y else x.

Inductive error := RangeError.

Inductive outcome (A : Type) :=
| Returned (a : A)
| Thrown (e : error).
Arguments Returned {A} a.
Arguments Thrown {A} e.

(** Console output so far, and how the call ended. *)
Definition JS (A : Type) : Type := list string * outcome A.

Definition ret {A} (a : A) : JS A := ([], Returned a).
Definition throw {A} (e : error) : JS A := ([], Thrown e).
Definition warn (s : string) : JS unit := ([s]%list, Returned tt).

Definition bind {A B} (m : JS A) (f : A -> JS B) : JS B :=
  match m with
  | (w, Returned a) => let '(w', r) := f a in (w ++ w', r)
  | (w, Thrown e) => (w, Thrown e)
  end.

Definition console {A} (m : JS A) : list string := fst m.
Definition result {A} (m : JS A) : outcome A := snd m.

(** [target.set(source)] on a typed array: copies [source] over the
    first entries of [target]; a [RangeError] when [source] is longer. *)
Definition typedSet (target source : list num) : JS (list num) :=
  if decide (length source <= length target)%nat
  then ret (source ++ drop (length source) target)
  else throw RangeError.

End Js.

Notation "x <- m ;; k" := (Js.bind m (fun x => k))
  (at level 100, m at next level, right associativity).

(** ** [TetrahedralMesh] *)

Module TetrahedralMesh.
Import Js.

Record t := Mk {
  domainMin : vec3;
  domainMax : vec3;
  nodes : list num;           (* Float32Array, node positions *)
  nodeVelocities : list num;  (* Float32Array *)
  tetrahedra : list N;        (* Uint32Array *)
  nodeCount : nat;
  tetCount : nat
}.

(** The body of the innermost node loop: [nodes.push(x, y, z)]. *)
Definition gridNode (dmin : vec3) (dx dy dz : num) (i j k : nat) : list num :=
  let '(minx, miny, minz) := dmin in
  [ minx + of_nat i * dx; miny + of_nat j * dy; minz + of_nat k * dz ].

(** [for k <= nz, for j <= ny, for i <= nx]. *)
Definition gridNodes (dmin : vec3) (dx dy dz : num) (nx ny nz : nat) : list num :=
  k ← seq 0 (S nz); j ← seq 0 (S ny); i ← seq 0 (S nx);
  gridNode dmin dx dy dz i j k.

Definition getNodeIndex (nx ny : nat) (i j k : nat) : N :=
  (N.of_nat i + N.of_nat j * (N.of_nat nx + 1)
   + N.of_nat k * (N.of_nat nx + 1) * (N.of_nat ny + 1))%N.

(** The five tetrahedra of the cube at [(i, j, k)]. *)
Definition cubeTetrahedra (nx ny : nat) (i j k : nat) : list N :=
  let n000 := getNodeIndex nx ny i j k in
  let n100 := getNodeIndex nx ny (i + 1) j k in
  let n010 := getNodeIndex nx ny i (j + 1) k in
  let n110 := getNodeIndex nx ny (i + 1) (j + 1) k in
  let n001 := getNodeIndex nx ny i j (k + 1) in
  let n101 := getNodeIndex nx ny (i + 1) j (k + 1) in
  let n011 := getNodeIndex nx ny i (j + 1) (k + 1) in
  let n111 := getNodeIndex nx ny (i + 1) (j + 1) (k + 1) in
  [ n000; n100; n110; n101;
    n000; n110; n010; n011;
    n000; n101; n001; n011;
    n110; n101; n111; n011;
    n000; n110; n101; n011 ].

(** [for k < nz, for j < ny, for i < nx]. *)
Definition gridTetrahedra (nx ny nz : nat) : list N :=
  k ← seq 0 nz; j ← seq 0 ny; i ← seq 0 nx;
  cubeTetrahedra nx ny i j k.

(** [createRegularMesh(nx, ny, nz)] on a mesh constructed over
    [dmin .. dmax].  The body has no [throw] and no validation of the
    resolution.  When a resolution component is [0] the JavaScript
    quotient is not a finite number; the rational quotient written here
    is then not the stored coordinate, and no statement below speaks
    about coordinates in that case. *)
Definition createRegularMesh (dmin dmax : vec3) (nx ny nz : nat) : JS t :=
  let '(minx, miny, minz) := dmin in
  let '(maxx, maxy, maxz) := dmax in
  let dx := (maxx - minx) / of_nat nx in
  let dy := (maxy - miny) / of_nat ny in
  let dz := (maxz - minz) / of_nat nz in
  let nodes := gridNodes dmin dx dy dz nx ny nz in
  let tetrahedra := gridTetrahedra nx ny nz in
  ret {| domainMin := dmin;
         domainMax := dmax;
         nodes := nodes;
         nodeVelocities := replicate (length nodes) 0;
         tetrahedra := toUint32 <$> tetrahedra;
         nodeCount := length nodes / 3;
         tetCount := length tetrahedra / 4 |}.

(** [initialize()] *)
Definition initialize (dmin dmax : vec3) : JS t :=
  createRegularMesh dmin dmax 8 8 8.

Definition getNodes (m : t) : list num := nodes m.
Definition getNodeVelocities (m : t) : list num := nodeVelocities m.

(** [setNodeVelocities(v)]: [this.nodeVelocities = new Float32Array(v)],
    a fresh copy. *)
Definition setNodeVelocities (m : t) (v : list num) : t :=
  {| domainMin := domainMin m; domainMax := domainMax m;
     nodes := nodes m; nodeVelocities := v;
     tetrahedra := tetrahedra m;
     nodeCount := nodeCount m; tetCount := tetCount m |}.

(** The simulator writes through the array returned by [getNodes()];
    this is the mesh after such writes. *)
Definition withNodes (m : t) (ns : list num) : t :=
  {| domainMin := domainMin m; domainMax := domainMax m;
     nodes := ns; nodeVelocities := nodeVelocities m;
     tetrahedra := tetrahedra m;
     nodeCount := nodeCount m; tetCount := tetCount m |}.

(** [getTetrahedron(index)] *)
Definition getTetrahedron (tets : list N) (index : nat) : list N :=
  let i := (index * 4)%nat in
  [ rdN tets i; rdN tets (i + 1); rdN tets (i + 2); rdN tets (i + 3) ].

(** [[nodes[n*3], nodes[n*3+1], nodes[n*3+2]]] *)
Definition nodePosition (ns : list num) (n : N) : vec3 :=
  let b := N.to_nat (n * 3) in
  (rd ns b, rd ns (b + 1), rd ns (b + 2)).

(** [tetrahedronVolume(p0, p1, p2, p3)]: scalar triple product over 6. *)
Definition tetrahedronVolume (p0 p1 p2 p3 : vec3) : num :=
  let '(p0x, p0y, p0z) := p0 in
  let '(p1x, p1y, p1z) := p1 in
  let '(p2x, p2y, p2z) := p2 in
  let '(p3x, p3y, p3z) := p3 in
  let v1 := (p1x - p0x, p1y - p0y, p1z - p0z) in
  let v2 := (p2x - p0x, p2y - p0y, p2z - p0z) in
  let v3 := (p3x - p0x, p3y - p0y, p3z - p0z) in
  let '(v1x, v1y, v1z) := v1 in
  let '(v2x, v2y, v2z) := v2 in
  let '(v3x, v3y, v3z) := v3 in
  let cross := (v2y * v3z - v2z * v3y,
                v2z * v3x - v2x * v3z,
                v2x * v3y - v2y * v3x) in
  let '(cx, cy, cz) := cross in
  (v1x * cx + v1y * cy + v1z * cz) / c_6.

(** The part of [computeBarycentricCoordinates] after the four vertex
    positions have been fetched. *)
Definition barycentric (p0 p1 p2 p3 p : vec3) : list num :=
  let volume := tetrahedronVolume p0 p1 p2 p3 in
  if ltb (Qcabs volume) c_1em10 then
    [ c_0_25; c_0_25; c_0_25; c_0_25 ]
  else
    let v0 := tetrahedronVolume p p1 p2 p3 in
    let v1 := tetrahedronVolume p0 p p2 p3 in
    let v2 := tetrahedronVolume p0 p1 p p3 in
    let v3 := tetrahedronVolume p0 p1 p2 p in
    [ v0 / volume; v1 / volume; v2 / volume; v3 / volume ].

(** [computeBarycentricCoordinates(tetIndex, x, y, z)], reading the
    current node and tetrahedron arrays. *)
Definition computeBarycentricCoordinates
    (ns : list num) (tets : list N) (tetIndex : nat) (x y z : num) : list num :=
  let tet := getTetrahedron tets tetIndex in
  let p0 := nodePosition ns (rdN tet 0) in
  let p1 := nodePosition ns (rdN tet 1) in
  let p2 := nodePosition ns (rdN tet 2) in
  let p3 := nodePosition ns (rdN tet 3) in
  barycentric p0 p1 p2 p3 (x, y, z).

(** The test of [findContainingTetrahedron]:
    [bary[0] >= 0 && bary[1] >= 0 && bary[2] >= 0 && bary[3] >= 0]. *)
Definition allNonNegative (bary : list num) : bool :=
  leb 0 (rd bary 0) && leb 0 (rd bary 1) && leb 0 (rd bary 2) && leb 0 (rd bary 3).

(** The scan [for (t = from; t < from + remaining; t++)]. *)
Fixpoint scanFrom (ns : list num) (tets : list N) (x y z : num)
    (from remaining : nat) : Z :=
  match remaining with
  | O => (-1)%Z
  | S r =>
      if allNonNegative (computeBarycentricCoordinates ns tets from x y z)
      then Z.of_nat from
      else scanFrom ns tets x y z (S from) r
  end.

(** [findContainingTetrahedron(x, y, z)] *)
Definition findContainingTetrahedron
    (ns : list num) (tets : list N) (tetCount : nat) (x y z : num) : Z :=
  scanFrom ns tets x y z 0 tetCount.

Definition locate (m : t) (x y z : num) : Z :=
  findContainingTetrahedron (nodes m) (tetrahedra m) (tetCount m) x y z.

(** The test [Math.abs(volume) < 1e-10] as a proposition. *)
Definition isDegenerate (p0 p1 p2 p3 : vec3) : Prop :=
  Qcabs (tetrahedronVolume p0 p1 p2 p3) < c_1em10.


(** Tetrahedron [t] of the arrays is degenerate. *)
Definition tetDegenerate (ns : list num) (tets : list N) (t : nat) : Prop :=
  let tet := getTetrahedron tets t in
  isDegenerate (nodePosition ns (rdN tet 0)) (nodePosition ns (rdN tet 1))
               (nodePosition ns (rdN tet 2)) (nodePosition ns (rdN tet 3)).

(** The point [l0*p0 + l1*p1 + l2*p2 + l3*p3]; with non-negative
    coefficients of sum [1] these are the points of the tetrahedron. *)
Definition affine (l0 l1 l2 l3 : num) (p0 p1 p2 p3 : vec3) : vec3 :=
  let '(x0, y0, z0) := p0 in
  let '(x1, y1, z1) := p1 in
  let '(x2, y2, z2) := p2 in
  let '(x3, y3, z3) := p3 in
  (l0 * x0 + l1 * x1 + l2 * x2 + l3 * x3,
   l0 * y0 + l1 * y1 + l2 * y2 + l3 * y3,
   l0 * z0 + l1 * z1 + l2 * z2 + l3 * z3).

(** The mesh invariant of the data model: the counts describe the
    arrays and every tetrahedron names four valid nodes. *)
Definition wf (m : t) : Prop :=
  length (nodes m) = (3 * nodeCount m)%nat /\
  length (nodeVelocities m) = (3 * nodeCount m)%nat /\
  length (tetrahedra m) = (4 * tetCount m)%nat /\
  Forall (fun n => (N.to_nat n < nodeCount m)%nat) (tetrahedra m).

End TetrahedralMesh.

(** ** [ParticleSystem] *)

Module ParticleSystem.
Import Js.

Record t := Mk {
  maxParticles : nat;
  count : num;
  positions : list num;   (* Float32Array *)
  velocities : list num   (* Float32Array *)
}.

(** [new ParticleSystem(device, maxParticles)] followed by
    [initialize()]. *)
Definition initialize (maxParticles : nat) : t :=
  {| maxParticles := maxParticles; count := 0;
     positions := replicate (maxParticles * 3) 0;
     velocities := replicate (maxParticles * 3) 0 |}.

Definition warnPositions : string := "Too many particles, truncating".
Definition warnVelocities : string := "Too many velocities, truncating".

(** The guard shared by both setters:
    [if (a.length > this.maxParticles * 3) { console.warn(msg);
    a = a.slice(0, this.maxParticles * 3); }]. *)
Definition truncate (ps : t) (msg : string) (a : list num) : JS (list num) :=
  if decide (maxParticles ps * 3 < length a)%nat
  then (_ <- warn msg ;; ret (take (maxParticles ps * 3) a))
  else ret a.

(** [setPositions(positions)] *)
Definition setPositions (ps : t) (newPositions : list num) : JS t :=
  newPositions <- truncate ps warnPositions newPositions ;;
  buffer <- typedSet (positions ps) newPositions ;;
  ret {| maxParticles := maxParticles ps;
         count := of_nat (length newPositions) / of_nat 3;
         positions := buffer;
         velocities := velocities ps |}.

(** [setVelocities(velocities)] *)
Definition setVelocities (ps : t) (newVelocities : list num) : JS t :=
  newVelocities <- truncate ps warnVelocities newVelocities ;;
  buffer <- typedSet (velocities ps) newVelocities ;;
  ret {| maxParticles := maxParticles ps;
         count := count ps;
         positions := positions ps;
         velocities := buffer |}.

(** [getCount()] *)
Definition getCount (ps : t) : num := count ps.

(** The particle set after in-place writes through the arrays that
    [getParticles()] hands out. *)
Definition withBuffers (ps : t) (pos vel : list num) : t :=
  {| maxParticles := maxParticles ps; count := count ps;
     positions := pos; velocities := vel |}.

(** What [initialize()] establishes and every method keeps: both
    buffers hold three numbers per slot of capacity. *)
Definition wf (ps : t) : Prop :=
  length (positions ps) = (maxParticles ps * 3)%nat /\
  length (velocities ps) = (maxParticles ps * 3)%nat.

End ParticleSystem.

(** ** [PressureSolver] *)

Module PressureSolver.
Import Js.

Record t := Mk {
  maxIterations : nat;
  tolerance : num
}.

(** [constructor(device, mesh)] *)
Definition new : t := {| maxIterations := 50; tolerance := c_1em4 |}.

(** [Math.abs(d) || 0.1]: the right operand is taken exactly when the
    left one is falsy, which for a number means zero. *)
Definition spacing (d : num) : num :=
  if decide (Qcabs d = 0) then c_0_1 else Qcabs d.

(** [positions[1][0] - positions[0][0]], [positions[2][1] - positions[0][1]]
    and [positions[3][2] - positions[0][2]]. *)
Definition axisDifferences (positions : list vec3) : vec3 :=
  let p i := default (0, 0, 0) (positions !! i) in
  let '(p0x, p0y, p0z) := p 0%nat in
  let '(p1x, _, _) := p 1%nat in
  let '(_, p2y, _) := p 2%nat in
  let '(_, _, p3z) := p 3%nat in
  (p1x - p0x, p2y - p0y, p3z - p0z).

(** The three denominators [dx], [dy], [dz] of [approximateDivergence]. *)
Definition denominators (positions : list vec3) : vec3 :=
  let '(ax, ay, az) := axisDifferences positions in
  (spacing ax, spacing ay, spacing az).

(** [approximateDivergence(positions, velocities)] *)
Definition approximateDivergence (positions velocities : list vec3) : num :=
  let '(dx, dy, dz) := denominators positions in
  let v i := default (0, 0, 0) (velocities !! i) in
  let '(v0x, v0y, v0z) := v 0%nat in
  let '(v1x, _, _) := v 1%nat in
  let '(_, v2y, _) := v 2%nat in
  let '(_, _, v3z) := v 3%nat in
  let dvx := (v1x - v0x) / dx in
  let dvy := (v2y - v0y) / dy in
  let dvz := (v3z - v0z) / dz in
  dvx + dvy + dvz.

(** The gathering loop of [computeDivergence] for tetrahedron [t]:
    the positions of its four nodes. *)
Definition tetPositions (m : TetrahedralMesh.t) (t : nat) : list vec3 :=
  TetrahedralMesh.nodePosition (TetrahedralMesh.nodes m)
    <$> TetrahedralMesh.getTetrahedron (TetrahedralMesh.tetrahedra m) t.

Definition tetVelocities (m : TetrahedralMesh.t) (velocities : list num) (t : nat)
    : list vec3 :=
  TetrahedralMesh.nodePosition velocities
    <$> TetrahedralMesh.getTetrahedron (TetrahedralMesh.tetrahedra m) t.

(** [avgDiv] of the divergence assembly for tetrahedron [t]. *)
Definition tetDivergence (m : TetrahedralMesh.t) (velocities : list num) (t : nat)
    : num :=
  approximateDivergence (tetPositions m t) (tetVelocities m velocities t).

(** The distribution loop of [computeDivergence] for vertex [i] of a
    tetrahedron: [divergence[tet[i]] += avgDiv; counts[tet[i]]++]. *)
Definition splat (avgDiv : num) (tet : list N) (acc : list num * list num) (i : nat)
    : list num * list num :=
  let '(divergence, counts) := acc in
  let n := N.to_nat (rdN tet i) in
  (wr divergence n (rd divergence n + avgDiv), wr counts n (rd counts n + 1)).

(** The body of the tetrahedron loop of [computeDivergence]. *)
Definition assemble (m : TetrahedralMesh.t) (velocities : list num)
    (acc : list num * list num) (t : nat) : list num * list num :=
  let tet := TetrahedralMesh.getTetrahedron (TetrahedralMesh.tetrahedra m) t in
  let avgDiv := tetDivergence m velocities t in
  foldl (splat avgDiv tet) acc (seq 0 4).

(** The averaging loop body of [computeDivergence] for node [i]. *)
Definition average (counts : list num) (divergence : list num) (i : nat) : list num :=
  if ltb 0 (rd counts i)
  then wr divergence i (rd divergence i / rd counts i)
  else divergence.

(** [computeDivergence(mesh, velocities, divergence)]: the contents of
    [divergence] when it returns. *)
Definition computeDivergence (m : TetrahedralMesh.t)
    (velocities divergence : list num) : list num :=
  let divergence := replicate (length divergence) 0 in
  let counts := replicate (TetrahedralMesh.nodeCount m) 0 in
  let '(divergence, counts) :=
    foldl (assemble m velocities) (divergence, counts)
          (seq 0 (TetrahedralMesh.tetCount m)) in
  foldl (average counts) divergence (seq 0 (TetrahedralMesh.nodeCount m)).

(** [neighbors.add(n)] on a [Set], kept in insertion order. *)
Definition setAdd (s : list N) (n : N) : list N :=
  if decide (n ∈ s) then s else s ++ [n]%list.

(** The body of the scan of [getNeighbors] for tetrahedron [t]. *)
Definition addTetNeighbors (tets : list N) (nodeIndex : nat)
    (neighbors : list N) (t : nat) : list N :=
  let tet := TetrahedralMesh.getTetrahedron tets t in
  if decide (N.of_nat nodeIndex ∈ tet) then
    foldl (fun s n => if decide (n ≠ N.of_nat nodeIndex) then setAdd s n else s)
          neighbors tet
  else neighbors.

(** [getNeighbors(mesh, nodeIndex)] *)
Definition getNeighbors (m : TetrahedralMesh.t) (nodeIndex : nat) : list N :=
  foldl (addTetNeighbors (TetrahedralMesh.tetrahedra m) nodeIndex) []
        (seq 0 (TetrahedralMesh.tetCount m)).

(** [rhs = new Float32Array(divergence); for i < nodeCount: rhs[i] *= dt]. *)
Definition scaledRhs (nodeCount : nat) (divergence : list num) (dt : num) : list num :=
  foldl (fun rhs i => wr rhs i (rd rhs i * dt)) divergence (seq 0 nodeCount).

(** [for (const n of neighbors) { sum += pressureOld[n]; count++; }] *)
Definition neighborSum (pressureOld : list num) (neighbors : list N) : num * nat :=
  foldl (fun '(sum, count) n => (sum + rd pressureOld (N.to_nat n), S count))
        (0, 0%nat) neighbors.

(** The update of node [i] inside one pass: reads [pressureOld] and
    [rhs], writes [pressure[i]]. *)
Definition updateNode (m : TetrahedralMesh.t) (rhs pressureOld : list num)
    (pressure : list num) (i : nat) : list num :=
  let '(sum, count) := neighborSum pressureOld (getNeighbors m i) in
  if decide (0 < count)%nat
  then wr pressure i ((sum - rd rhs i) / of_nat count)
  else pressure.

(** One pass [for i < nodeCount] over the nodes. *)
Definition sweep (m : TetrahedralMesh.t) (rhs pressureOld pressure : list num)
    : list num :=
  foldl (updateNode m rhs pressureOld) pressure
        (seq 0 (TetrahedralMesh.nodeCount m)).

(** The convergence check: [maxDiff = Math.max(maxDiff, |p[i] - pOld[i]|)]. *)
Definition maxDiff (nodeCount : nat) (pressure pressureOld : list num) : num :=
  foldl (fun d i => max d (Qcabs (rd pressure i - rd pressureOld i)))
        0 (seq 0 nodeCount).

(** The loop [for (iter = 0; iter < maxIterations; iter++)], by the
    number of iterations still allowed.  Returns the pressure array and
    the number of passes that ran. *)
Fixpoint iterate (s : t) (m : TetrahedralMesh.t) (rhs : list num)
    (remaining : nat) (pressureOld pressure : list num) : JS (list num * nat) :=
  match remaining with
  | O => ret (pressure, 0%nat)
  | S r =>
      pressureOld <- typedSet pressureOld pressure ;;
      let pressure := sweep m rhs pressureOld pressure in
      if ltb (maxDiff (TetrahedralMesh.nodeCount m) pressure pressureOld) (tolerance s)
      then ret (pressure, 1%nat)
      else
        r <- iterate s m rhs r pressureOld pressure ;;
        ret (fst r, S (snd r))
  end.

(** [conjugateGradient(mesh, divergence, pressure, dt)] *)
Definition conjugateGradient (s : t) (m : TetrahedralMesh.t)
    (divergence pressure : list num) (dt : num) : JS (list num * nat) :=
  let nodeCount := TetrahedralMesh.nodeCount m in
  let rhs := scaledRhs nodeCount divergence dt in
  let pressureOld := replicate nodeCount 0 in
  iterate s m rhs (maxIterations s) pressureOld pressure.

(** The relaxation step in the words of the specification, to compare
    with [sweep]: every node that has a neighbour gets
    [(sum of its neighbours' previous pressures - rhs) / neighbourCount],
    all from the previous values [pressureOld]; a node without neighbour
    keeps its value. *)
Definition jacobiStep (m : TetrahedralMesh.t) (rhs pressureOld : list num)
    : list num :=
  imap (fun i p_i =>
          let neighbors := getNeighbors m i in
          match neighbors with
          | [] => p_i
          | _ =>
              (foldr Qcplus 0 ((fun n => rd pressureOld (N.to_nat n)) <$> neighbors)
               - rd rhs i) / of_nat (length neighbors)
          end)
       pressureOld.

(** The stopping test in the words of the specification: every node
    changed by less than the tolerance. *)
Definition converged (s : t) (nodeCount : nat) (pressure pressureOld : list num)
    : Prop :=
  forall i, (i < nodeCount)%nat ->
            Qcabs (rd pressure i - rd pressureOld i) < tolerance s.

End PressureSolver.

(** ** [TetFlipSimulator] *)

Module TetFlipSimulator.
Import Js.

(** The simulator after [initialize()] has created and initialized its
    components. *)
Record t := Mk {
  timeStep : num;
  gravity : num;
  viscosity : num;
  simulationTime : num;
  domainMin : vec3;
  domainMax : vec3;
  mesh : TetrahedralMesh.t;
  particles : ParticleSystem.t;
  flipRatio : num
}.

Definition withMesh (sim : t) (m : TetrahedralMesh.t) : t :=
  {| timeStep := timeStep sim; gravity := gravity sim;
     viscosity := viscosity sim; simulationTime := simulationTime sim;
     domainMin := domainMin sim; domainMax := domainMax sim;
     mesh := m; particles := particles sim; flipRatio := flipRatio sim |}.

Definition withParticles (sim : t) (ps : ParticleSystem.t) : t :=
  {| timeStep := timeStep sim; gravity := gravity sim;
     viscosity := viscosity sim; simulationTime := simulationTime sim;
     domainMin := domainMin sim; domainMax := domainMax sim;
     mesh := mesh sim; particles := ps; flipRatio := flipRatio sim |}.

(** The offsets visited by [for (p = 0; p < length; p += 3)]. *)
Definition offsets (length : nat) : list nat :=
  (fun s => s * 3)%nat <$> seq 0 ((length + 2) / 3).

(** The offsets visited by [for (i = 0; i < length / 3; i++)]. *)
Definition nodeIndices (length : nat) : list nat :=
  seq 0 ((length + 2) / 3).

(** [a[i] += v] *)
Definition addAt (a : list num) (i : nat) (v : num) : list num :=
  wr a i (rd a i + v).

(** [a[i] /= v] *)
Definition divAt (a : list num) (i : nat) (v : num) : list num :=
  wr a i (rd a i / v).

(** *** P2G *)

(** The reset loop of [particlesToMesh], over the array it obtained
    from [getNodes()]. *)
Definition resetNodes (meshNodes : list num) : list num :=
  foldl (fun a i => wr (wr (wr a (i + 0) 0) (i + 1) 0) (i + 2) 0)
        meshNodes (offsets (length meshNodes)).

(** The innermost loop body of [particlesToMesh] for vertex [i]. *)
Definition scatter (vx vy vz : num) (tet : list N) (bary : list num)
    (acc : list num * list num) (i : nat) : list num * list num :=
  let '(meshNodes, weights) := acc in
  let nodeIdx := N.to_nat (rdN tet i * 3) in
  let w := rd bary i in
  let meshNodes := addAt meshNodes (nodeIdx + 0) (w * vx) in
  let meshNodes := addAt meshNodes (nodeIdx + 1) (w * vy) in
  let meshNodes := addAt meshNodes (nodeIdx + 2) (w * vz) in
  let weights := addAt weights (N.to_nat (rdN tet i)) w in
  (meshNodes, weights).

(** The particle loop body of [particlesToMesh] for the slot at offset
    [p].  The location query and the barycentric weights read the mesh
    node array, which is the very array [meshNodes] being written. *)
Definition p2gParticle (tets : list N) (tetCount : nat)
    (positions velocities : list num)
    (acc : list num * list num) (p : nat) : list num * list num :=
  let px := rd positions (p + 0) in
  let py := rd positions (p + 1) in
  let pz := rd positions (p + 2) in
  let vx := rd velocities (p + 0) in
  let vy := rd velocities (p + 1) in
  let vz := rd velocities (p + 2) in
  let tetIndex :=
    TetrahedralMesh.findContainingTetrahedron (fst acc) tets tetCount px py pz in
  if decide (0 <= tetIndex)%Z then
    let tet := TetrahedralMesh.getTetrahedron tets (Z.to_nat tetIndex) in
    let bary :=
      TetrahedralMesh.computeBarycentricCoordinates
        (fst acc) tets (Z.to_nat tetIndex) px py pz in
    foldl (scatter vx vy vz tet bary) acc (seq 0 4)
  else acc.

(** The normalisation loop body of [particlesToMesh] for node [i]. *)
Definition normalizeNode (weights : list num) (meshNodes : list num) (i : nat)
    : list num :=
  if ltb 0 (rd weights i) then
    let meshNodes := divAt meshNodes (i * 3 + 0) (rd weights i) in
    let meshNodes := divAt meshNodes (i * 3 + 1) (rd weights i) in
    let meshNodes := divAt meshNodes (i * 3 + 2) (rd weights i) in
    meshNodes
  else meshNodes.

(** The particle loop of [particlesToMesh]. *)
Definition p2gLoop (tets : list N) (tetCount : nat)
    (positions velocities : list num) (acc : list num * list num)
    : list num * list num :=
  foldl (p2gParticle tets tetCount positions velocities) acc
        (offsets (length positions)).

(** [particlesToMesh()].  [meshNodes] is [this.mesh.getNodes()], the
    position array of the mesh, and every write below goes to it. *)
Definition particlesToMesh (sim : t) : JS t :=
  let m := mesh sim in
  let meshNodes := TetrahedralMesh.getNodes m in
  let meshNodes := resetNodes meshNodes in
  let weights := replicate (length meshNodes / 3) 0 in
  let positions := ParticleSystem.positions (particles sim) in
  let velocities := ParticleSystem.velocities (particles sim) in
  let '(meshNodes, weights) :=
    p2gLoop (TetrahedralMesh.tetrahedra m) (TetrahedralMesh.tetCount m)
            positions velocities (meshNodes, weights) in
  let meshNodes :=
    foldl (normalizeNode weights) meshNodes (nodeIndices (length meshNodes)) in
  ret (withMesh sim
         (TetrahedralMesh.setNodeVelocities
            (TetrahedralMesh.withNodes m meshNodes) meshNodes)).

(** The accumulators of [particlesToMesh] when [k] slots of total
    velocity [total] have all been scattered, with the four weights
    [0.25], into the tetrahedron of the distinct nodes [a], [b], [c], [d]:
    these nodes hold [0.25 * total] and the weight [0.25 * k], every
    other node holds zeros. *)
Definition scattered (a b c d nodeCount : nat) (total : vec3) (k : num)
    (acc : list num * list num) : Prop :=
  let '(tx, ty, tz) := total in
  length acc.1 = (nodeCount * 3)%nat /\
  length acc.2 = nodeCount /\
  forall n, (n < nodeCount)%nat ->
    let on := bool_decide (n = a \/ n = b \/ n = c \/ n = d) in
    rd acc.1 (n * 3 + 0) = (if on then c_0_25 * tx else 0) /\
    rd acc.1 (n * 3 + 1) = (if on then c_0_25 * ty else 0) /\
    rd acc.1 (n * 3 + 2) = (if on then c_0_25 * tz else 0) /\
    rd acc.2 n = (if on then c_0_25 * k else 0).

(** The sum of component [c] of the velocities of the first [k] slots. *)
Definition velocitySum (velocities : list num) (k c : nat) : num :=
  foldr Qcplus 0 ((fun s => rd velocities (s * 3 + c)) <$> seq 0 k).

(** *** Body forces *)

(** [applyBodyForces()]: [velocities[i + 1] += this.gravity * this.timeStep]
    for [i = 0, 3, 6, ...], on the array from [getNodeVelocities()], then
    [setNodeVelocities(velocities)]. *)
Definition applyBodyForces (sim : t) : t :=
  let velocities := TetrahedralMesh.getNodeVelocities (mesh sim) in
  let velocities :=
    foldl (fun v i => addAt v (i + 1) (gravity sim * timeStep sim))
          velocities (offsets (length velocities)) in
  withMesh sim (TetrahedralMesh.setNodeVelocities (mesh sim) velocities).

(** *** G2P *)

(** The interpolation loop body of [meshToParticles] for vertex [i]. *)
Definition gather (meshVelocitiesNew : list num) (tet : list N) (bary : list num)
    (acc : vec3) (i : nat) : vec3 :=
  let '(vx_new, vy_new, vz_new) := acc in
  let nodeIdx := N.to_nat (rdN tet i * 3) in
  let w := rd bary i in
  (vx_new + w * rd meshVelocitiesNew (nodeIdx + 0),
   vy_new + w * rd meshVelocitiesNew (nodeIdx + 1),
   vz_new + w * rd meshVelocitiesNew (nodeIdx + 2)).

(** The grid velocity interpolated in tetrahedron [tetIndex] at a point. *)
Definition interpolate (m : TetrahedralMesh.t) (tetIndex : nat) (px py pz : num)
    : vec3 :=
  let tet := TetrahedralMesh.getTetrahedron (TetrahedralMesh.tetrahedra m) tetIndex in
  let bary :=
    TetrahedralMesh.computeBarycentricCoordinates
      (TetrahedralMesh.nodes m) (TetrahedralMesh.tetrahedra m) tetIndex px py pz in
  foldl (gather (TetrahedralMesh.getNodeVelocities m) tet bary) (0, 0, 0) (seq 0 4).

(** The particle loop body of [meshToParticles] for the slot at offset [p]. *)
Definition g2pParticle (m : TetrahedralMesh.t) (positions : list num)
    (velocities : list num) (p : nat) : list num :=
  let px := rd positions (p + 0) in
  let py := rd positions (p + 1) in
  let pz := rd positions (p + 2) in
  let tetIndex := TetrahedralMesh.locate m px py pz in
  if decide (0 <= tetIndex)%Z then
    let '(vx_new, vy_new, vz_new) := interpolate m (Z.to_nat tetIndex) px py pz in
    let velocities := wr velocities (p + 0) vx_new in
    let velocities := wr velocities (p + 1) vy_new in
    let velocities := wr velocities (p + 2) vz_new in
    velocities
  else velocities.

Definition g2pLoop (m : TetrahedralMesh.t) (positions velocities : list num)
    : list num :=
  foldl (g2pParticle m positions) velocities (offsets (length positions)).

(** [meshToParticles()] *)
Definition meshToParticles (sim : t) : JS t :=
  let ps := particles sim in
  let positions := ParticleSystem.positions ps in
  let velocities := ParticleSystem.velocities ps in
  let velocities := g2pLoop (mesh sim) positions velocities in
  ps <- ParticleSystem.setVelocities
          (ParticleSystem.withBuffers ps positions velocities) velocities ;;
  ret (withParticles sim ps).

(** *** Advection and collision *)

Definition advectParticle (dt : num) (velocities : list num)
    (positions : list num) (p : nat) : list num :=
  let positions := addAt positions (p + 0) (rd velocities (p + 0) * dt) in
  let positions := addAt positions (p + 1) (rd velocities (p + 1) * dt) in
  let positions := addAt positions (p + 2) (rd velocities (p + 2) * dt) in
  positions.

Definition advectLoop (dt : num) (positions velocities : list num) : list num :=
  foldl (advectParticle dt velocities) positions (offsets (length positions)).

(** [advectParticles()] *)
Definition advectParticles (sim : t) : JS t :=
  let ps := particles sim in
  let positions := ParticleSystem.positions ps in
  let velocities := ParticleSystem.velocities ps in
  let positions := advectLoop (timeStep sim) positions velocities in
  ps <- ParticleSystem.setPositions
          (ParticleSystem.withBuffers ps positions velocities) positions ;;
  ret (withParticles sim ps).

Definition restitution : num := c_0_3.

(** One of the three boundary tests of [handleCollisions], on the
    coordinate stored at [idx]. *)
Definition collideAxis (lo hi : num) (acc : list num * list num) (idx : nat)
    : list num * list num :=
  let '(positions, velocities) := acc in
  if ltb (rd positions idx) lo then
    (wr positions idx lo,
     wr velocities idx (Qcabs (rd velocities idx) * restitution))
  else if ltb hi (rd positions idx) then
    (wr positions idx hi,
     wr velocities idx (- Qcabs (rd velocities idx) * restitution))
  else acc.

(** The same three-way test on one coordinate value [x] and its velocity
    [v], without the arrays: the coordinate and velocity afterwards. *)
Definition collided (lo hi x v : num) : num * num :=
  if ltb x lo then (lo, Qcabs v * restitution)
  else if ltb hi x then (hi, - Qcabs v * restitution)
  else (x, v).

Definition collideParticle (dmin dmax : vec3) (acc : list num * list num) (p : nat)
    : list num * list num :=
  let '(minx, miny, minz) := dmin in
  let '(maxx, maxy, maxz) := dmax in
  let acc := collideAxis minx maxx acc (p + 0) in
  let acc := collideAxis miny maxy acc (p + 1) in
  let acc := collideAxis minz maxz acc (p + 2) in
  acc.

Definition collideLoop (dmin dmax : vec3) (positions velocities : list num)
    : list num * list num :=
  foldl (collideParticle dmin dmax) (positions, velocities)
        (offsets (length positions)).

(** [handleCollisions()] *)
Definition handleCollisions (sim : t) : JS t :=
  let ps := particles sim in
  let '(positions, velocities) :=
    collideLoop (domainMin sim) (domainMax sim)
                (ParticleSystem.positions ps) (ParticleSystem.velocities ps) in
  ps <- ParticleSystem.setPositions
          (ParticleSystem.withBuffers ps positions velocities) positions ;;
  ps <- ParticleSystem.setVelocities ps (ParticleSystem.velocities ps) ;;
  ret (withParticles sim ps).

End TetFlipSimulator.

(** ** Concrete meshes and particle sets used in the examples *)

Module Examples.
Import Js.

Definition emptyMesh : TetrahedralMesh.t :=
  TetrahedralMesh.Mk (0, 0, 0) (0, 0, 0) [] [] [] 0 0.

Definition built (r : JS TetrahedralMesh.t) : TetrahedralMesh.t :=
  match result r with
  | Returned m => m
  | Thrown _ => emptyMesh
  end.

(** One cell over the unit cube. *)
Definition unitCube : TetrahedralMesh.t :=
  built (TetrahedralMesh.createRegularMesh (0, 0, 0) (1, 1, 1) 1 1 1).

(** One cell of edge length [0.05]. *)
Definition c_0_05 : num := Q2Qc (1 # 20).
Definition fineCube : TetrahedralMesh.t :=
  built (TetrahedralMesh.createRegularMesh
           (0, 0, 0) (c_0_05, c_0_05, c_0_05) 1 1 1).

(** Five nodes: the corners of the unit square in the plane [z = 0] and
    the apex [(0,0,1)].  Tetrahedron 0 is the flat one on the square,
    tetrahedron 1 is the corner tetrahedron. *)
Definition flatFirstMesh : TetrahedralMesh.t :=
  TetrahedralMesh.Mk (0, 0, 0) (1, 1, 1)
    [ 0; 0; 0;   1; 0; 0;   0; 1; 0;   1; 1; 0;   0; 0; 1 ]
    (replicate 15 0)
    [ 0; 1; 2; 3;   0; 1; 2; 4 ]%N
    5 2.

(** The one-cell unit cube with node [n] moving at velocity [(n, 0, 1)]. *)
Definition movingCube : TetrahedralMesh.t :=
  TetrahedralMesh.setNodeVelocities unitCube
    (n ← seq 0 8; [ of_nat n; 0; 1 ]).

(** Capacity 2, one live particle at [(1/4, 1/4, 1/4)] with velocity
    [(1, 2, 0)]; the second slot is as [initialize()] left it. *)
Definition oneOfTwo : ParticleSystem.t :=
  ParticleSystem.Mk 2 1
    [ c_0_25; c_0_25; c_0_25;   0; 0; 0 ]
    [ 1; 1 + 1; 0;   0; 0; 0 ].

Definition c_0_016 : num := Q2Qc (16 # 1000).
Definition c_9_8 : num := Q2Qc (98 # 10).

(** The fields the constructor of [TetFlipSimulator] sets, around a given
    mesh and particle set. *)
Definition simulator (m : TetrahedralMesh.t) (ps : ParticleSystem.t)
    : TetFlipSimulator.t :=
  {| TetFlipSimulator.timeStep := c_0_016;
     TetFlipSimulator.gravity := - c_9_8;
     TetFlipSimulator.viscosity := Q2Qc (1 # 1000);
     TetFlipSimulator.simulationTime := 0;
     TetFlipSimulator.domainMin := (- (1), - (1), - (1));
     TetFlipSimulator.domainMax := (1, 1, 1);
     TetFlipSimulator.mesh := m;
     TetFlipSimulator.particles := ps;
     TetFlipSimulator.flipRatio := Q2Qc (95 # 100) |}.

Definition smallSim : TetFlipSimulator.t := simulator movingCube oneOfTwo.

(** The simulator as its [initialize()] builds it, before the dam-break
    particles are assigned: the [(8,8,8)] mesh over [[-1,1]^3] and a
    particle set of capacity 1000. *)
Definition defaultMesh : TetrahedralMesh.t :=
  built (TetrahedralMesh.initialize (- (1), - (1), - (1)) (1, 1, 1)).

Definition defaultSim : TetFlipSimulator.t :=
  simulator defaultMesh (ParticleSystem.initialize 1000).


(** Capacity 1: a particle at [(2, 0, -3)], outside the domain
    [[-1,1]^3] on two axes, moving at [(5, 1, -4)]. *)
Definition escaped : ParticleSystem.t :=
  ParticleSystem.Mk 1 1
    [ 1 + 1; 0; - (1 + 1 + 1) ]
    [ Qc_of_Z 5; 1; - Qc_of_Z 4 ].

Definition escapedSim : TetFlipSimulator.t := simulator unitCube escaped.

(** The value a call returned, or [d] if it threw. *)
Definition returned {A} (d : A) (r : JS A) : A :=
  match result r with
  | Returned a => a
  | Thrown _ => d
  end.

Definition afterP2G (sim : TetFlipSimulator.t) : TetFlipSimulator.t :=
  returned sim (TetFlipSimulator.particlesToMesh sim).

End Examples.

(** * Properties *)

(** ** Typed arrays and the [JS] monad *)

Section TypedArrays.
Import Js.

Lemma length_wr a i v : length (wr a i v) = length a.
Proof. apply length_insert. Qed.

Lemma rd_wr_eq a i v : (i < length a)%nat -> rd (wr a i v) i = v.
Proof. intros Hi. unfold rd, wr. by rewrite list_lookup_insert_eq. Qed.

Lemma rd_wr_ne a i j v : i ≠ j -> rd (wr a i v) j = rd a j.
Proof. intros Hij. unfold rd, wr. by rewrite list_lookup_insert_ne. Qed.

Lemma rd_replicate n i : rd (replicate n 0) i = 0.
Proof.
  unfold rd. destruct (replicate n 0 !! i) as [x|] eqn:E; [|done].
  by apply lookup_replicate in E as [-> _].
Qed.

Lemma bind_ret {A B} (a : A) (f : A -> JS B) : bind (ret a) f = f a.
Proof. unfold bind, ret. by destruct (f a). Qed.

Lemma typedSet_fits target source :
  (length source <= length target)%nat ->
  typedSet target source = ret (source ++ drop (length source) target).
Proof. intros H. unfold typedSet. by rewrite decide_True. Qed.

Lemma typedSet_self a : typedSet a a = ret a.
Proof.
  rewrite typedSet_fits by done.
  by rewrite drop_all, app_nil_r.
Qed.

End TypedArrays.

(** ** Mesh construction *)

Section Construction.
Import Js TetrahedralMesh.

Lemma length_bind_const {A B} (f : A -> list B) (l : list A) n :
  (forall x, length (f x) = n) -> length (l ≫= f) = (length l * n)%nat.
Proof.
  intros Hf. induction l as [|x l IH]; [done|].
  rewrite bind_cons, length_app, Hf, IH. simpl. lia.
Qed.

Lemma length_gridNodes dmin dx dy dz nx ny nz :
  length (gridNodes dmin dx dy dz nx ny nz)
  = (3 * ((nx + 1) * (ny + 1) * (nz + 1)))%nat.
Proof.
  unfold gridNodes.
  rewrite (length_bind_const _ _ ((ny + 1) * ((nx + 1) * 3))).
  - rewrite length_seq. lia.
  - intros k. rewrite (length_bind_const _ _ ((nx + 1) * 3)).
    + rewrite length_seq. lia.
    + intros j. rewrite (length_bind_const _ _ 3).
      * rewrite length_seq. lia.
      * intros i. unfold gridNode. destruct dmin as [[? ?] ?]. reflexivity.
Qed.

Lemma length_gridTetrahedra nx ny nz :
  length (gridTetrahedra nx ny nz) = (4 * (5 * nx * ny * nz))%nat.
Proof.
  unfold gridTetrahedra.
  rewrite (length_bind_const _ _ (ny * (nx * 20))).
  - rewrite length_seq. lia.
  - intros k. rewrite (length_bind_const _ _ (nx * 20)).
    + rewrite length_seq. lia.
    + intros j. rewrite (length_bind_const _ _ 20).
      * rewrite length_seq. lia.
      * done.
Qed.

(** What [createRegularMesh] returns, for every resolution. *)
Lemma createRegularMesh_returns dmin dmax nx ny nz :
  exists m,
    createRegularMesh dmin dmax nx ny nz = ret m /\
    nodeCount m = ((nx + 1) * (ny + 1) * (nz + 1))%nat /\
    length (nodes m) = (3 * nodeCount m)%nat /\
    tetCount m = (5 * nx * ny * nz)%nat /\
    length (tetrahedra m) = (4 * tetCount m)%nat /\
    nodeVelocities m = replicate (3 * nodeCount m) 0.
Proof.
  unfold createRegularMesh.
  destruct dmin as [[minx miny] minz], dmax as [[maxx maxy] maxz].
  eexists. split; [reflexivity|].
  cbn [nodes nodeCount tetCount tetrahedra nodeVelocities].
  rewrite length_fmap, length_gridNodes, length_gridTetrahedra.
  assert (H3 : forall n, (3 * n / 3 = n)%nat)
    by (intros n; rewrite Nat.mul_comm; by apply Nat.div_mul).
  assert (H4 : forall n, (4 * n / 4 = n)%nat)
    by (intros n; rewrite Nat.mul_comm; by apply Nat.div_mul).
  rewrite H3, H4. done.
Qed.

End Construction.

(** C5.  For every resolution with [nx, ny, nz >= 1], mesh construction
    returns a mesh with exactly [(nx+1)(ny+1)(nz+1)] nodes (three
    coordinates each) and exactly [5*nx*ny*nz] tetrahedra (four indices
    each), and the node velocity buffer holds three zeros per node. *)
Theorem createRegularMesh_counts (dmin dmax : Qc * Qc * Qc) (nx ny nz : nat) :
  (1 <= nx)%nat -> (1 <= ny)%nat -> (1 <= nz)%nat ->
  exists m,
    Js.result (TetrahedralMesh.createRegularMesh dmin dmax nx ny nz) = Js.Returned m /\
    TetrahedralMesh.nodeCount m = ((nx + 1) * (ny + 1) * (nz + 1))%nat /\
    length (TetrahedralMesh.nodes m) = (3 * TetrahedralMesh.nodeCount m)%nat /\
    TetrahedralMesh.tetCount m = (5 * nx * ny * nz)%nat /\
    length (TetrahedralMesh.tetrahedra m) = (4 * TetrahedralMesh.tetCount m)%nat /\
    length (TetrahedralMesh.nodeVelocities m) = (3 * TetrahedralMesh.nodeCount m)%nat /\
    (forall i, Js.rd (TetrahedralMesh.nodeVelocities m) i = 0).
Proof.
  intros _ _ _.
  destruct (createRegularMesh_returns dmin dmax nx ny nz)
    as (m & Hm & Hn & Hln & Ht & Hlt & Hv).
  exists m. rewrite Hm. repeat split; try done.
  - rewrite Hv. apply length_replicate.
  - intros i. rewrite Hv. apply rd_replicate.
Qed.

(** The default mesh of [initialize()]: resolution [(8,8,8)] gives 729
    nodes and 2560 tetrahedra. *)
Lemma createRegularMesh_counts_default :
  (1 <= 8)%nat /\
  exists m,
    Js.result (TetrahedralMesh.initialize (-1, -1, -1) (1, 1, 1)) = Js.Returned m /\
    TetrahedralMesh.nodeCount m = 729%nat /\
    TetrahedralMesh.tetCount m = 2560%nat /\
    (forall i, Js.rd (TetrahedralMesh.nodeVelocities m) i = 0).
Proof.
  split; [lia|].
  destruct (createRegularMesh_counts (-1, -1, -1) (1, 1, 1) 8 8 8)
    as (m & Hm & Hn & _ & Ht & _ & _ & Hv); [lia..|].
  exists m. repeat split; assumption.
Defined.

(** C4, as the code behaves: a resolution with a zero component is not
    rejected.  [createRegularMesh] returns normally, without console
    output, a mesh with [(nx+1)(ny+1)(nz+1)] nodes and no tetrahedron. *)
Theorem createRegularMesh_zero_cells (dmin dmax : Qc * Qc * Qc) (nx ny nz : nat) :
  nx = 0%nat \/ ny = 0%nat \/ nz = 0%nat ->
  exists m,
    TetrahedralMesh.createRegularMesh dmin dmax nx ny nz = Js.ret m /\
    TetrahedralMesh.nodeCount m = ((nx + 1) * (ny + 1) * (nz + 1))%nat /\
    TetrahedralMesh.tetCount m = 0%nat /\
    TetrahedralMesh.tetrahedra m = [].
Proof.
  intros Hz.
  destruct (createRegularMesh_returns dmin dmax nx ny nz)
    as (m & Hm & Hn & _ & Ht & Hlt & _).
  assert (Ht0 : TetrahedralMesh.tetCount m = 0%nat).
  { rewrite Ht. destruct Hz as [-> | [-> | ->]]; lia. }
  exists m. repeat split; try done.
  rewrite Ht0 in Hlt. by apply nil_length_inv.
Qed.

Lemma createRegularMesh_zero_cells_witness :
  exists m,
    TetrahedralMesh.createRegularMesh (-1, -1, -1) (1, 1, 1) 0 8 8 = Js.ret m /\
    TetrahedralMesh.nodeCount m = 81%nat /\
    TetrahedralMesh.tetCount m = 0%nat /\
    TetrahedralMesh.tetrahedra m = [].
Proof.
  apply (createRegularMesh_zero_cells (-1, -1, -1) (1, 1, 1) 0 8 8).
  left. reflexivity.
Defined.

(** C4, as stated, fails: with [nx = 0] the constructor does not throw,
    it produces a mesh. *)
Lemma createRegularMesh_zero_cells_not_rejected :
  ~ (forall nx ny nz : nat,
       nx = 0%nat \/ ny = 0%nat \/ nz = 0%nat ->
       exists e,
         Js.result (TetrahedralMesh.createRegularMesh (-1, -1, -1) (1, 1, 1) nx ny nz)
         = Js.Thrown e).
Proof.
  intros H. destruct (H 0%nat 8%nat 8%nat) as [e He]; [by left|].
  destruct (createRegularMesh_returns (-1, -1, -1) (1, 1, 1) 0 8 8) as (m & Hm & _).
  rewrite Hm in He. discriminate He.
Qed.

(** ** Divergence assembly *)

Section Divergence.
Import Js PressureSolver.

Lemma c_0_1_pos : 0 < c_0_1.
Proof. reflexivity. Qed.

Lemma Qcabs_pos_of_nonzero (d : Qc) : Qcabs d ≠ 0 -> 0 < Qcabs d.
Proof.
  intros Hd. destruct (Qcle_lt_or_eq _ _ (Qcabs_nonneg d)) as [H|H]; [done|].
  by destruct Hd.
Qed.

Lemma spacing_zero (d : Qc) : d = 0 -> spacing d = c_0_1.
Proof. intros ->. reflexivity. Qed.

Lemma spacing_nonzero (d : Qc) : d ≠ 0 -> spacing d = Qcabs d.
Proof.
  intros Hd. unfold spacing. rewrite decide_False; [done|].
  intros H. by apply Hd, Qcabs_null.
Qed.

Lemma spacing_pos (d : Qc) : 0 < spacing d.
Proof.
  unfold spacing. destruct (decide (Qcabs d = 0)) as [H|H].
  - apply c_0_1_pos.
  - by apply Qcabs_pos_of_nonzero.
Qed.

Lemma approximateDivergence_unfold positions velocities :
  let '(dx, dy, dz) := denominators positions in
  let '(ax, ay, az) := axisDifferences velocities in
  approximateDivergence positions velocities = ax / dx + ay / dy + az / dz.
Proof.
  unfold approximateDivergence, axisDifferences.
  destruct (denominators positions) as [[dx dy] dz].
  destruct (default (0, 0, 0) (velocities !! 0%nat)) as [[v0x v0y] v0z].
  destruct (default (0, 0, 0) (velocities !! 1%nat)) as [[v1x v1y] v1z].
  destruct (default (0, 0, 0) (velocities !! 2%nat)) as [[v2x v2y] v2z].
  destruct (default (0, 0, 0) (velocities !! 3%nat)) as [[v3x v3y] v3z].
  reflexivity.
Qed.

End Divergence.

(** C3, as the code behaves.  For every tetrahedron of every mesh, each of
    the three denominators of the divergence estimate is the absolute
    vertex spacing on its axis when that spacing is not zero, and [0.1]
    when it is exactly zero.  A denominator is therefore never zero, but
    it is smaller than [0.1] whenever the spacing is. *)
Theorem divergence_denominators (m : TetrahedralMesh.t) (velocities : list Qc) (t : nat) :
  let '(ax, ay, az) :=
    PressureSolver.axisDifferences (PressureSolver.tetPositions m t) in
  let '(vx, vy, vz) :=
    PressureSolver.axisDifferences (PressureSolver.tetVelocities m velocities t) in
  let denominator (d : Qc) : Qc := if decide (d = 0) then Js.c_0_1 else Qcabs d in
  PressureSolver.denominators (PressureSolver.tetPositions m t)
    = (denominator ax, denominator ay, denominator az) /\
  PressureSolver.tetDivergence m velocities t
    = vx / denominator ax + vy / denominator ay + vz / denominator az /\
  0 < denominator ax /\ 0 < denominator ay /\ 0 < denominator az.
Proof.
  pose proof (approximateDivergence_unfold
                (PressureSolver.tetPositions m t)
                (PressureSolver.tetVelocities m velocities t)) as Hdiv.
  unfold PressureSolver.tetDivergence, PressureSolver.denominators in *.
  destruct (PressureSolver.axisDifferences (PressureSolver.tetPositions m t))
    as [[ax ay] az].
  destruct (PressureSolver.axisDifferences
              (PressureSolver.tetVelocities m velocities t)) as [[vx vy] vz].
  assert (Hs : forall d : Qc,
             PressureSolver.spacing d = if decide (d = 0) then Js.c_0_1 else Qcabs d).
  { intros d. destruct (decide (d = 0)) as [Hd|Hd].
    - by apply spacing_zero.
    - by apply spacing_nonzero. }
  rewrite <- !Hs. repeat split; try done; apply spacing_pos.
Qed.

(** C3, as stated, fails: in the one-cell mesh of edge length [0.05] the
    first tetrahedron is differenced over denominators [0.05 < 0.1]. *)
Lemma divergence_denominator_below_floor :
  PressureSolver.denominators (PressureSolver.tetPositions Examples.fineCube 0)
    = (Examples.c_0_05, Examples.c_0_05, Examples.c_0_05) /\
  Examples.c_0_05 < Js.c_0_1.
Proof. split; compute_done. Qed.

(** ** Barycentric coordinates *)

Section Barycentric.
Import Js TetrahedralMesh.

Lemma c_6_nonzero : c_6 ≠ 0.
Proof. compute_done. Qed.

Lemma c_1em10_pos : 0 < c_1em10.
Proof. reflexivity. Qed.

Lemma c_0_25_nonneg : 0 ≤ c_0_25.
Proof. compute_done. Qed.

Lemma c_0_25_sum : c_0_25 + c_0_25 + c_0_25 + c_0_25 = 1.
Proof. compute_done. Qed.

Lemma isDegenerate_dec p0 p1 p2 p3 :
  {isDegenerate p0 p1 p2 p3} + {~ isDegenerate p0 p1 p2 p3}.
Proof. unfold isDegenerate. apply (decide _). Qed.

Lemma nondegenerate_volume p0 p1 p2 p3 :
  ~ isDegenerate p0 p1 p2 p3 -> tetrahedronVolume p0 p1 p2 p3 ≠ 0.
Proof.
  intros Hnd Hz. apply Hnd. unfold isDegenerate. rewrite Hz.
  apply c_1em10_pos.
Qed.

Lemma barycentric_degenerate p0 p1 p2 p3 p :
  isDegenerate p0 p1 p2 p3 ->
  barycentric p0 p1 p2 p3 p = [ c_0_25; c_0_25; c_0_25; c_0_25 ].
Proof.
  intros Hd. unfold barycentric, ltb. by rewrite bool_decide_eq_true_2.
Qed.

Lemma barycentric_nondegenerate p0 p1 p2 p3 p :
  ~ isDegenerate p0 p1 p2 p3 ->
  barycentric p0 p1 p2 p3 p =
    [ tetrahedronVolume p p1 p2 p3 / tetrahedronVolume p0 p1 p2 p3;
      tetrahedronVolume p0 p p2 p3 / tetrahedronVolume p0 p1 p2 p3;
      tetrahedronVolume p0 p1 p p3 / tetrahedronVolume p0 p1 p2 p3;
      tetrahedronVolume p0 p1 p2 p / tetrahedronVolume p0 p1 p2 p3 ].
Proof.
  intros Hd. unfold barycentric, ltb. by rewrite bool_decide_eq_false_2.
Qed.

(** The four sub-volumes add up to the volume, wherever the point is. *)
Lemma subvolumes_sum p0 p1 p2 p3 p :
  tetrahedronVolume p p1 p2 p3 + tetrahedronVolume p0 p p2 p3
  + tetrahedronVolume p0 p1 p p3 + tetrahedronVolume p0 p1 p2 p
  = tetrahedronVolume p0 p1 p2 p3.
Proof.
  destruct p0 as [[x0 y0] z0], p1 as [[x1 y1] z1], p2 as [[x2 y2] z2],
           p3 as [[x3 y3] z3], p as [[x y] z].
  unfold tetrahedronVolume. field. apply c_6_nonzero.
Qed.

(** Each sub-volume of an affine combination is its coefficient times
    the volume. *)
Lemma subvolumes_affine l0 l1 l2 l3 p0 p1 p2 p3 :
  l0 + l1 + l2 + l3 = 1 ->
  let p := affine l0 l1 l2 l3 p0 p1 p2 p3 in
  let v := tetrahedronVolume p0 p1 p2 p3 in
  tetrahedronVolume p p1 p2 p3 = l0 * v /\
  tetrahedronVolume p0 p p2 p3 = l1 * v /\
  tetrahedronVolume p0 p1 p p3 = l2 * v /\
  tetrahedronVolume p0 p1 p2 p = l3 * v.
Proof.
  intros Hsum.
  assert (Hl0 : l0 = 1 - l1 - l2 - l3) by (rewrite <- Hsum; ring).
  subst l0.
  destruct p0 as [[x0 y0] z0], p1 as [[x1 y1] z1], p2 as [[x2 y2] z2],
           p3 as [[x3 y3] z3].
  unfold affine, tetrahedronVolume.
  repeat split; field; apply c_6_nonzero.
Qed.

Lemma barycentric_affine l0 l1 l2 l3 p0 p1 p2 p3 :
  ~ isDegenerate p0 p1 p2 p3 ->
  l0 + l1 + l2 + l3 = 1 ->
  barycentric p0 p1 p2 p3 (affine l0 l1 l2 l3 p0 p1 p2 p3) = [ l0; l1; l2; l3 ].
Proof.
  intros Hnd Hsum.
  rewrite barycentric_nondegenerate by done.
  destruct (subvolumes_affine l0 l1 l2 l3 p0 p1 p2 p3 Hsum)
    as (-> & -> & -> & ->).
  pose proof (nondegenerate_volume _ _ _ _ Hnd) as Hv.
  repeat f_equal; field; exact Hv.
Qed.

Lemma affine_vertices p0 p1 p2 p3 :
  affine 1 0 0 0 p0 p1 p2 p3 = p0 /\ affine 0 1 0 0 p0 p1 p2 p3 = p1 /\
  affine 0 0 1 0 p0 p1 p2 p3 = p2 /\ affine 0 0 0 1 p0 p1 p2 p3 = p3.
Proof.
  destruct p0 as [[x0 y0] z0], p1 as [[x1 y1] z1], p2 as [[x2 y2] z2],
           p3 as [[x3 y3] z3].
  unfold affine. repeat split; repeat f_equal; ring.
Qed.

Lemma barycentric_vertices p0 p1 p2 p3 :
  ~ isDegenerate p0 p1 p2 p3 ->
  barycentric p0 p1 p2 p3 p0 = [ 1; 0; 0; 0 ] /\
  barycentric p0 p1 p2 p3 p1 = [ 0; 1; 0; 0 ] /\
  barycentric p0 p1 p2 p3 p2 = [ 0; 0; 1; 0 ] /\
  barycentric p0 p1 p2 p3 p3 = [ 0; 0; 0; 1 ].
Proof.
  intros Hnd.
  destruct (affine_vertices p0 p1 p2 p3) as (H0 & H1 & H2 & H3).
  pose proof (barycentric_affine 1 0 0 0 p0 p1 p2 p3 Hnd) as B0.
  pose proof (barycentric_affine 0 1 0 0 p0 p1 p2 p3 Hnd) as B1.
  pose proof (barycentric_affine 0 0 1 0 p0 p1 p2 p3 Hnd) as B2.
  pose proof (barycentric_affine 0 0 0 1 p0 p1 p2 p3 Hnd) as B3.
  rewrite H0 in B0. rewrite H1 in B1. rewrite H2 in B2. rewrite H3 in B3.
  repeat split; [apply B0|apply B1|apply B2|apply B3]; ring.
Qed.

Lemma barycentric_sum p0 p1 p2 p3 p :
  exists b0 b1 b2 b3,
    barycentric p0 p1 p2 p3 p = [ b0; b1; b2; b3 ] /\ b0 + b1 + b2 + b3 = 1.
Proof.
  destruct (isDegenerate_dec p0 p1 p2 p3) as [Hd|Hnd].
  - rewrite barycentric_degenerate by done.
    do 4 eexists. split; [reflexivity|]. apply c_0_25_sum.
  - rewrite barycentric_nondegenerate by done.
    do 4 eexists. split; [reflexivity|].
    pose proof (nondegenerate_volume _ _ _ _ Hnd) as Hv.
    rewrite <- (subvolumes_sum p0 p1 p2 p3 p) at 1 2 3 4.
    rewrite <- (subvolumes_sum p0 p1 p2 p3 p) in Hv.
    field. exact Hv.
Qed.

Lemma le_one_of_sum (a b c d : Qc) :
  a + b + c + d = 1 -> 0 ≤ a -> 0 ≤ b -> 0 ≤ c -> 0 ≤ d ->
  a ≤ 1 /\ b ≤ 1 /\ c ≤ 1 /\ d ≤ 1.
Proof.
  intros Hs Ha Hb Hc Hd.
  assert (H : forall x y : Qc, 0 ≤ y -> x ≤ x + y).
  { intros x y Hy. rewrite <- (Qcplus_0_r x) at 1.
    by apply Qcplus_le_mono_l. }
  assert (Hbc : 0 ≤ b + c) by (by apply Qcplus_nonneg_nonneg).
  assert (Hbcd : 0 ≤ b + c + d) by (by apply Qcplus_nonneg_nonneg).
  assert (Hac : 0 ≤ a + c) by (by apply Qcplus_nonneg_nonneg).
  assert (Hacd : 0 ≤ a + c + d) by (by apply Qcplus_nonneg_nonneg).
  assert (Hab : 0 ≤ a + b) by (by apply Qcplus_nonneg_nonneg).
  assert (Habd : 0 ≤ a + b + d) by (by apply Qcplus_nonneg_nonneg).
  assert (Habc : 0 ≤ a + b + c) by (by apply Qcplus_nonneg_nonneg).
  repeat split; rewrite <- Hs.
  - replace (a + b + c + d) with (a + (b + c + d)) by ring. by apply H.
  - replace (a + b + c + d) with (b + (a + c + d)) by ring. by apply H.
  - replace (a + b + c + d) with (c + (a + b + d)) by ring. by apply H.
  - replace (a + b + c + d) with (d + (a + b + c)) by ring. by apply H.
Qed.

Lemma allNonNegative_spec b0 b1 b2 b3 :
  allNonNegative [ b0; b1; b2; b3 ] = true <->
  0 ≤ b0 /\ 0 ≤ b1 /\ 0 ≤ b2 /\ 0 ≤ b3.
Proof.
  unfold allNonNegative, leb, rd. simpl.
  rewrite !andb_true_iff, !bool_decide_eq_true. tauto.
Qed.

End Barycentric.

(** C8.  For every tetrahedron of a mesh whose absolute signed volume is
    at least [1e-10]: the barycentric coordinates computed at each of its
    own four vertices are the one-hot vector of that vertex; at every
    point the four computed coordinates sum to exactly [1], and when all
    four pass the containment test they all lie in [[0,1]]; and at every
    point of the tetrahedron (a combination of the vertices with
    non-negative coefficients of sum [1]) the computed coordinates are
    those coefficients, all in [[0,1]]. *)
Theorem barycentric_coordinates (ns : list Qc) (tets : list N) (t : nat) :
  let tet := TetrahedralMesh.getTetrahedron tets t in
  let p0 := TetrahedralMesh.nodePosition ns (Js.rdN tet 0) in
  let p1 := TetrahedralMesh.nodePosition ns (Js.rdN tet 1) in
  let p2 := TetrahedralMesh.nodePosition ns (Js.rdN tet 2) in
  let p3 := TetrahedralMesh.nodePosition ns (Js.rdN tet 3) in
  let bary (p : Qc * Qc * Qc) :=
    let '(x, y, z) := p in
    TetrahedralMesh.computeBarycentricCoordinates ns tets t x y z in
  Js.c_1em10 ≤ Qcabs (TetrahedralMesh.tetrahedronVolume p0 p1 p2 p3) ->
  (bary p0 = [ 1; 0; 0; 0 ] /\ bary p1 = [ 0; 1; 0; 0 ] /\
   bary p2 = [ 0; 0; 1; 0 ] /\ bary p3 = [ 0; 0; 0; 1 ]) /\
  (forall p, exists b0 b1 b2 b3,
      bary p = [ b0; b1; b2; b3 ] /\
      b0 + b1 + b2 + b3 = 1 /\
      (TetrahedralMesh.allNonNegative (bary p) = true ->
       (0 ≤ b0 /\ b0 ≤ 1) /\ (0 ≤ b1 /\ b1 ≤ 1) /\
       (0 ≤ b2 /\ b2 ≤ 1) /\ (0 ≤ b3 /\ b3 ≤ 1))) /\
  (forall l0 l1 l2 l3,
      0 ≤ l0 -> 0 ≤ l1 -> 0 ≤ l2 -> 0 ≤ l3 -> l0 + l1 + l2 + l3 = 1 ->
      bary (TetrahedralMesh.affine l0 l1 l2 l3 p0 p1 p2 p3) = [ l0; l1; l2; l3 ] /\
      l0 ≤ 1 /\ l1 ≤ 1 /\ l2 ≤ 1 /\ l3 ≤ 1).
Proof.
  intros tet p0 p1 p2 p3 bary Hvol.
  assert (Hnd : ~ TetrahedralMesh.isDegenerate p0 p1 p2 p3)
    by (by apply Qcle_not_lt).
  assert (Hbary : forall p, bary p = TetrahedralMesh.barycentric p0 p1 p2 p3 p)
    by (by intros [[x y] z]).
  split; [|split].
  - rewrite !Hbary. by apply barycentric_vertices.
  - intros p. rewrite Hbary.
    destruct (barycentric_sum p0 p1 p2 p3 p) as (b0 & b1 & b2 & b3 & -> & Hs).
    exists b0, b1, b2, b3. repeat split; try done;
      apply allNonNegative_spec in H as (? & ? & ? & ?); try done;
      by apply (le_one_of_sum b0 b1 b2 b3).
  - intros l0 l1 l2 l3 H0 H1 H2 H3 Hs. rewrite Hbary. split.
    + by apply barycentric_affine.
    + by apply le_one_of_sum.
Qed.

(** The first tetrahedron of the one-cell unit cube has volume [1/6]; the
    coordinates of its first vertex are [(1,0,0,0)]. *)
Lemma barycentric_coordinates_witness :
  TetrahedralMesh.computeBarycentricCoordinates
    (TetrahedralMesh.nodes Examples.unitCube)
    (TetrahedralMesh.tetrahedra Examples.unitCube) 0 0 0 0
  = [ 1; 0; 0; 0 ].
Proof.
  refine (proj1 (proj1 (barycentric_coordinates
            (TetrahedralMesh.nodes Examples.unitCube)
            (TetrahedralMesh.tetrahedra Examples.unitCube) 0 _))).
  vm_compute. discriminate.
Defined.

(** ** Point location *)

Section PointLocation.
Import Js TetrahedralMesh.

Variables (ns : list Qc) (tets : list N) (x y z : Qc).

(** The containment test of the scan, for tetrahedron [t]. *)
Let matches (t : nat) : bool :=
  allNonNegative (computeBarycentricCoordinates ns tets t x y z).

Lemma scanFrom_cases from remaining :
  (scanFrom ns tets x y z from remaining = (-1)%Z /\
   forall t, (from <= t < from + remaining)%nat -> matches t = false) \/
  (exists t, scanFrom ns tets x y z from remaining = Z.of_nat t /\
             (from <= t < from + remaining)%nat /\ matches t = true /\
             forall t', (from <= t' < t)%nat -> matches t' = false).
Proof.
  revert from. induction remaining as [|r IH]; intros from; cbn [scanFrom].
  - left. split; [done|]. intros t Ht. lia.
  - fold (matches from). destruct (matches from) eqn:Hm.
    + right. exists from. split; [done|]. split; [lia|]. split; [done|]. lia.
    + destruct (IH (S from)) as [[Hr Hnone]|(t & Hr & Ht & Hmt & Hbefore)].
      * left. split; [done|]. intros t Ht.
        destruct (decide (t = from)) as [->|Hne]; [done|]. apply Hnone. lia.
      * right. exists t. split; [done|]. split; [lia|]. split; [done|]. intros t' Ht'.
        destruct (decide (t' = from)) as [->|Hne]; [done|]. apply Hbefore. lia.
Qed.

Lemma find_found tetCount t :
  findContainingTetrahedron ns tets tetCount x y z = Z.of_nat t <->
  (t < tetCount)%nat /\ matches t = true /\
  forall t', (t' < t)%nat -> matches t' = false.
Proof.
  unfold findContainingTetrahedron.
  destruct (scanFrom_cases 0 tetCount) as [[Hr Hnone]|(u & Hr & Hu & Hmu & Hbefore)];
    rewrite Hr.
  - split; [lia|]. intros (Ht & Hm & _). rewrite Hnone in Hm by lia. done.
  - split.
    + intros Heq. assert (u = t) as -> by lia.
      repeat split; try done; try lia. intros t' Ht'. apply Hbefore. lia.
    + intros (Ht & Hm & Hb). f_equal.
      destruct (Nat.lt_trichotomy u t) as [Hlt|[Heq|Hgt]]; [|done|].
      * rewrite Hb in Hmu by done. done.
      * rewrite Hbefore in Hm by lia. done.
Qed.

Lemma find_not_found tetCount :
  findContainingTetrahedron ns tets tetCount x y z = (-1)%Z <->
  forall t, (t < tetCount)%nat -> matches t = false.
Proof.
  unfold findContainingTetrahedron.
  destruct (scanFrom_cases 0 tetCount) as [[Hr Hnone]|(u & Hr & Hu & Hmu & Hbefore)];
    rewrite Hr.
  - split; [|done]. intros _ t Ht. apply Hnone. lia.
  - split; [lia|]. intros Hnone. rewrite Hnone in Hmu by lia. done.
Qed.

Lemma find_range tetCount :
  findContainingTetrahedron ns tets tetCount x y z = (-1)%Z \/
  exists t, (t < tetCount)%nat /\
            findContainingTetrahedron ns tets tetCount x y z = Z.of_nat t.
Proof.
  unfold findContainingTetrahedron.
  destruct (scanFrom_cases 0 tetCount) as [[Hr _]|(u & Hr & Hu & _)].
  - by left.
  - right. exists u. split; [lia|done].
Qed.

Lemma degenerate_matches t : tetDegenerate ns tets t -> matches t = true.
Proof.
  intros Hd. unfold matches, computeBarycentricCoordinates.
  rewrite barycentric_degenerate by exact Hd. reflexivity.
Qed.

End PointLocation.

(** C2, as the code behaves.  For every mesh that satisfies the mesh
    invariant and every query point, point location returns the smallest
    tetrahedron index whose four computed barycentric coordinates are all
    [>= 0], and [-1] exactly when no tetrahedron passes that test.  A
    degenerate tetrahedron computes [(0.25, 0.25, 0.25, 0.25)] and so
    always passes: it is the result whenever no tetrahedron of smaller
    index passes, whatever the later tetrahedra are. *)
Theorem findContainingTetrahedron_first_match (m : TetrahedralMesh.t) (x y z : Qc) :
  TetrahedralMesh.wf m ->
  let matches t :=
    TetrahedralMesh.allNonNegative
      (TetrahedralMesh.computeBarycentricCoordinates
         (TetrahedralMesh.nodes m) (TetrahedralMesh.tetrahedra m) t x y z) in
  let degenerate t :=
    TetrahedralMesh.tetDegenerate
      (TetrahedralMesh.nodes m) (TetrahedralMesh.tetrahedra m) t in
  (forall t,
      TetrahedralMesh.locate m x y z = Z.of_nat t <->
      (t < TetrahedralMesh.tetCount m)%nat /\ matches t = true /\
      forall t', (t' < t)%nat -> matches t' = false) /\
  (TetrahedralMesh.locate m x y z = (-1)%Z <->
   forall t, (t < TetrahedralMesh.tetCount m)%nat -> matches t = false) /\
  (TetrahedralMesh.locate m x y z = (-1)%Z \/
   exists t, (t < TetrahedralMesh.tetCount m)%nat /\
             TetrahedralMesh.locate m x y z = Z.of_nat t) /\
  (forall t,
      (t < TetrahedralMesh.tetCount m)%nat -> degenerate t ->
      (forall t', (t' < t)%nat -> matches t' = false) ->
      TetrahedralMesh.locate m x y z = Z.of_nat t).
Proof.
  intros _ matches degenerate. unfold TetrahedralMesh.locate.
  split; [|split; [|split]].
  - intros t. apply find_found.
  - apply find_not_found.
  - apply find_range.
  - intros t Ht Hd Hbefore. apply find_found. repeat split; try done.
    by apply degenerate_matches.
Qed.

Lemma flatFirstMesh_wf : TetrahedralMesh.wf Examples.flatFirstMesh.
Proof.
  repeat split; try reflexivity.
  unfold Examples.flatFirstMesh. cbn [TetrahedralMesh.tetrahedra TetrahedralMesh.nodeCount].
  repeat constructor.
Qed.

Lemma unitCube_wf : TetrahedralMesh.wf Examples.unitCube.
Proof.
  repeat split; try reflexivity.
  apply Forall_forall. intros n Hn. vm_compute in Hn.
  repeat (apply elem_of_cons in Hn as [->|Hn]; [vm_compute; lia|]).
  by apply elem_of_nil in Hn.
Qed.

(** In the one-cell unit cube the point [(1/4, 1/4, 1/4)] lies in the
    central tetrahedron, index 4, and in none before it. *)
Lemma findContainingTetrahedron_first_match_witness :
  TetrahedralMesh.locate Examples.unitCube Js.c_0_25 Js.c_0_25 Js.c_0_25 = 4%Z.
Proof.
  apply (proj1 (findContainingTetrahedron_first_match
                  Examples.unitCube Js.c_0_25 Js.c_0_25 Js.c_0_25 unitCube_wf) 4%nat).
  split; [vm_compute; lia|]. split; [vm_compute; reflexivity|].
  intros t' Ht'.
  destruct t' as [|[|[|[|t']]]]; [vm_compute; reflexivity..|lia].
Defined.

(** C2, as stated, fails.  In [flatFirstMesh] the point [(1/4, 1/4, 1/4)]
    lies in tetrahedron 1, which is not degenerate, but the query returns
    tetrahedron 0, which is. *)
Lemma findContainingTetrahedron_returns_degenerate :
  let m := Examples.flatFirstMesh in
  let ns := TetrahedralMesh.nodes m in
  let tets := TetrahedralMesh.tetrahedra m in
  let q := Js.c_0_25 in
  TetrahedralMesh.wf m /\
  TetrahedralMesh.locate m q q q = 0%Z /\
  TetrahedralMesh.tetDegenerate ns tets 0 /\
  ~ TetrahedralMesh.tetDegenerate ns tets 1 /\
  TetrahedralMesh.allNonNegative
    (TetrahedralMesh.computeBarycentricCoordinates ns tets 1 q q q) = true.
Proof.
  split; [apply flatFirstMesh_wf|].
  split; [vm_compute; reflexivity|].
  split; [vm_compute; reflexivity|].
  split; [|vm_compute; reflexivity].
  vm_compute. intros H. discriminate H.
Qed.

(** ** Particle set *)

Section ParticleSet.
Import Js ParticleSystem.

Lemma of_nat_triple n : of_nat (n * 3) / of_nat 3 = of_nat n.
Proof.
  unfold of_nat. rewrite Nat2Z.inj_mul, Z2Qc_inj_mul.
  field. compute_done.
Qed.

Lemma truncate_long ps msg a :
  (maxParticles ps * 3 < length a)%nat ->
  truncate ps msg a = ([msg]%list, Returned (take (maxParticles ps * 3) a)).
Proof. intros H. unfold truncate. by rewrite decide_True. Qed.

Lemma truncate_fits ps msg a :
  (length a <= maxParticles ps * 3)%nat -> truncate ps msg a = ret a.
Proof. intros H. unfold truncate. rewrite decide_False; [done|lia]. Qed.

(** A setter applied to the particle set's own buffer changes nothing. *)
Lemma setVelocities_own ps :
  wf ps -> setVelocities ps (velocities ps) = ret ps.
Proof.
  intros [Hp Hv]. unfold setVelocities.
  rewrite truncate_fits by lia. rewrite bind_ret, typedSet_self, bind_ret.
  by destruct ps.
Qed.

End ParticleSet.

(** C9.  On a particle set whose buffers have the size that
    [initialize()] gives them, assigning more position entries than the
    capacity holds returns normally (nothing is thrown), writes exactly
    one warning to the console, stores the first [3 * maxParticles]
    entries, and leaves [count] equal to [maxParticles]. *)
Theorem setPositions_truncates (ps : ParticleSystem.t) (newPositions : list Qc) :
  ParticleSystem.wf ps ->
  (ParticleSystem.maxParticles ps * 3 < length newPositions)%nat ->
  exists ps',
    ParticleSystem.setPositions ps newPositions
      = ([ParticleSystem.warnPositions]%list, Js.Returned ps') /\
    ParticleSystem.getCount ps' = Js.of_nat (ParticleSystem.maxParticles ps) /\
    ParticleSystem.positions ps'
      = take (ParticleSystem.maxParticles ps * 3) newPositions /\
    ParticleSystem.maxParticles ps' = ParticleSystem.maxParticles ps /\
    ParticleSystem.velocities ps' = ParticleSystem.velocities ps.
Proof.
  intros [Hp Hv] Hlong. unfold ParticleSystem.setPositions.
  rewrite truncate_long by done.
  remember (take (ParticleSystem.maxParticles ps * 3) newPositions) as kept eqn:Ek.
  assert (Hkept : length kept = (ParticleSystem.maxParticles ps * 3)%nat).
  { rewrite Ek, length_take. lia. }
  cbn [Js.bind]. rewrite typedSet_fits by lia.
  rewrite Hkept, <- Hp, drop_all, app_nil_r. cbn [Js.bind Js.ret app].
  eexists. split; [reflexivity|].
  cbn [ParticleSystem.getCount ParticleSystem.count ParticleSystem.positions
       ParticleSystem.maxParticles ParticleSystem.velocities].
  repeat split. rewrite Hp. apply of_nat_triple.
Qed.

(** Capacity 2 and [2 + 5] particles: one warning, [count = 2]. *)
Lemma setPositions_truncates_witness :
  exists ps',
    ParticleSystem.setPositions (ParticleSystem.initialize 2) (replicate 21 1)
      = ([ParticleSystem.warnPositions]%list, Js.Returned ps') /\
    ParticleSystem.getCount ps' = Js.of_nat 2 /\
    ParticleSystem.positions ps' = replicate 6 1.
Proof.
  destruct (setPositions_truncates (ParticleSystem.initialize 2) (replicate 21 1))
    as (ps' & Hset & Hcount & Hpos & _).
  - split; reflexivity.
  - vm_compute. lia.
  - exists ps'. split; [exact Hset|]. split; [exact Hcount|]. exact Hpos.
Defined.

(** ** Loops over particle slots *)

(** A loop over the slot offsets whose body touches only its own slot:
    what the loop leaves in slot [s] is what the body alone would have
    left there. *)
Section SlotLocalLoop.

Context {T O : Type}.
Variable obs : T -> nat -> O.
Variable step : T -> nat -> T.

Hypothesis step_other :
  forall st s s', s ≠ s' -> obs (step st (s' * 3)) s = obs st s.
Hypothesis step_local :
  forall st st' s, obs st s = obs st' s ->
                   obs (step st (s * 3)) s = obs (step st' (s * 3)) s.

Lemma slot_loop_from a n st s :
  obs (foldl step st ((fun s => s * 3)%nat <$> seq a n)) s
  = if decide (a <= s < a + n)%nat then obs (step st (s * 3)) s else obs st s.
Proof.
  revert a st. induction n as [|n IH]; intros a st.
  - cbn [seq fmap list_fmap foldl]. rewrite decide_False by lia. done.
  - cbn [seq fmap list_fmap foldl]. rewrite IH.
    destruct (decide (s = a)) as [->|Hne].
    + rewrite decide_False by lia. rewrite decide_True by lia. done.
    + destruct (decide (a <= s < a + S n)%nat) as [Hin|Hout].
      * rewrite decide_True by lia. apply step_local. by apply step_other.
      * rewrite decide_False by lia. by apply step_other.
Qed.

Lemma slot_loop len st s :
  (s * 3 < len)%nat ->
  obs (foldl step st (TetFlipSimulator.offsets len)) s = obs (step st (s * 3)) s.
Proof.
  intros Hs. unfold TetFlipSimulator.offsets. rewrite slot_loop_from.
  rewrite decide_True; [done|].
  split; [lia|]. apply Nat.div_le_lower_bound; lia.
Qed.

End SlotLocalLoop.

Section SlotObservation.
Import Js.

Lemma lookup_wr a i v j :
  wr a i v !! j = if decide (i = j) then (fun _ => v) <$> a !! j else a !! j.
Proof.
  unfold wr. destruct (decide (i = j)) as [->|Hne].
  - destruct (decide (j < length a)%nat) as [Hlt|Hge].
    + rewrite list_lookup_insert_eq by done.
      destruct (lookup_lt_is_Some_2 a j Hlt) as [x ->]. done.
    + rewrite list_insert_ge by lia.
      rewrite (lookup_ge_None_2 a j) by lia. done.
  - by rewrite list_lookup_insert_ne.
Qed.

Lemma rd_of_slot a b s :
  slot a s = slot b s ->
  rd a (s * 3 + 0) = rd b (s * 3 + 0) /\
  rd a (s * 3 + 1) = rd b (s * 3 + 1) /\
  rd a (s * 3 + 2) = rd b (s * 3 + 2).
Proof. rewrite Nat.add_0_r. unfold slot, rd. intros [= -> -> ->]. done. Qed.

Lemma foldl_length {B} (f : list Qc -> B -> list Qc) (l : list B) a :
  (forall a b, length (f a b) = length a) -> length (foldl f a l) = length a.
Proof.
  intros Hf. revert a. induction l as [|b l IH]; intros a; [done|].
  cbn [foldl]. by rewrite IH, Hf.
Qed.

End SlotObservation.

(** ** G2P *)

Section GridToParticle.
Import Js TetrahedralMesh TetFlipSimulator.

Variables (m : TetrahedralMesh.t) (positions : list Qc).

Lemma length_g2pParticle v p : length (g2pParticle m positions v p) = length v.
Proof.
  unfold g2pParticle. destruct (decide _); [|done].
  destruct (interpolate _ _ _ _ _) as [[vx vy] vz].
  by rewrite !length_wr.
Qed.

Lemma length_g2pLoop v : length (g2pLoop m positions v) = length v.
Proof. apply foldl_length. apply length_g2pParticle. Qed.

Lemma g2pParticle_other v s s' :
  s ≠ s' -> slot (g2pParticle m positions v (s' * 3)) s = slot v s.
Proof.
  intros Hne. unfold g2pParticle. destruct (decide _); [|done].
  destruct (interpolate _ _ _ _ _) as [[vx vy] vz].
  unfold slot. rewrite !lookup_wr.
  repeat (rewrite decide_False by lia). done.
Qed.

Lemma g2pParticle_local v v' s :
  slot v s = slot v' s ->
  slot (g2pParticle m positions v (s * 3)) s
  = slot (g2pParticle m positions v' (s * 3)) s.
Proof.
  intros Hs. unfold g2pParticle. destruct (decide _); [|done].
  destruct (interpolate _ _ _ _ _) as [[vx vy] vz].
  unfold slot in *. rewrite !lookup_wr. injection Hs as -> -> ->. done.
Qed.

Lemma g2pLoop_slot v s :
  (s * 3 < length positions)%nat ->
  slot (g2pLoop m positions v) s = slot (g2pParticle m positions v (s * 3)) s.
Proof.
  intros Hs. unfold g2pLoop.
  apply (slot_loop slot (g2pParticle m positions)); [|exact g2pParticle_local|done].
  intros st a b Hab. by apply g2pParticle_other.
Qed.

(** The interpolation loop, written out. *)
Lemma interpolate_unfold t px py pz :
  let tet := getTetrahedron (tetrahedra m) t in
  let bary := computeBarycentricCoordinates (nodes m) (tetrahedra m) t px py pz in
  let nv i k := rd (nodeVelocities m) (N.to_nat (rdN tet i * 3) + k) in
  let sum k :=
    0 + rd bary 0 * nv 0%nat k + rd bary 1 * nv 1%nat k
      + rd bary 2 * nv 2%nat k + rd bary 3 * nv 3%nat k in
  interpolate m t px py pz = (sum 0%nat, sum 1%nat, sum 2%nat).
Proof. reflexivity. Qed.

End GridToParticle.

(** C7.  On an initialized particle set and a mesh that satisfies the mesh
    invariant, [meshToParticles] returns normally and leaves the mesh and
    the particle positions as they were.  For every slot [s] of the
    buffers: when the location query for its position succeeds, its new
    velocity is the sum over the four nodes of the located tetrahedron of
    barycentric weight times node velocity, in which neither the prior
    particle velocity nor [flipRatio] occurs; when the query returns [-1],
    its velocity is the prior one. *)
Theorem meshToParticles_replaces (sim : TetFlipSimulator.t) (s : nat) :
  let m := TetFlipSimulator.mesh sim in
  let ps := TetFlipSimulator.particles sim in
  let p := (s * 3)%nat in
  let px := Js.rd (ParticleSystem.positions ps) (p + 0) in
  let py := Js.rd (ParticleSystem.positions ps) (p + 1) in
  let pz := Js.rd (ParticleSystem.positions ps) (p + 2) in
  let tetIndex := TetrahedralMesh.locate m px py pz in
  let tet :=
    TetrahedralMesh.getTetrahedron (TetrahedralMesh.tetrahedra m) (Z.to_nat tetIndex) in
  let bary :=
    TetrahedralMesh.computeBarycentricCoordinates
      (TetrahedralMesh.nodes m) (TetrahedralMesh.tetrahedra m)
      (Z.to_nat tetIndex) px py pz in
  let nv i k :=
    Js.rd (TetrahedralMesh.nodeVelocities m) (N.to_nat (Js.rdN tet i * 3) + k) in
  let interpolated k :=
    0 + Js.rd bary 0 * nv 0%nat k + Js.rd bary 1 * nv 1%nat k
      + Js.rd bary 2 * nv 2%nat k + Js.rd bary 3 * nv 3%nat k in
  TetrahedralMesh.wf m -> ParticleSystem.wf ps ->
  (s < ParticleSystem.maxParticles ps)%nat ->
  exists sim',
    TetFlipSimulator.meshToParticles sim = Js.ret sim' /\
    TetFlipSimulator.mesh sim' = m /\
    ParticleSystem.positions (TetFlipSimulator.particles sim')
      = ParticleSystem.positions ps /\
    let v := ParticleSystem.velocities ps in
    let v' := ParticleSystem.velocities (TetFlipSimulator.particles sim') in
    ((0 <= tetIndex)%Z ->
     Js.rd v' (p + 0) = interpolated 0%nat /\
     Js.rd v' (p + 1) = interpolated 1%nat /\
     Js.rd v' (p + 2) = interpolated 2%nat) /\
    (tetIndex = (-1)%Z ->
     Js.rd v' (p + 0) = Js.rd v (p + 0) /\
     Js.rd v' (p + 1) = Js.rd v (p + 1) /\
     Js.rd v' (p + 2) = Js.rd v (p + 2)).
Proof.
  intros m ps p px py pz tetIndex tet bary nv interpolated _ [Hp Hv] Hs.
  unfold TetFlipSimulator.meshToParticles. fold m ps.
  set (v' := TetFlipSimulator.g2pLoop m (ParticleSystem.positions ps)
               (ParticleSystem.velocities ps)).
  assert (Hlen : length v' = (ParticleSystem.maxParticles ps * 3)%nat).
  { unfold v'. by rewrite length_g2pLoop. }
  pose proof (setVelocities_own
                (ParticleSystem.withBuffers ps (ParticleSystem.positions ps) v'))
    as Hset.
  cbn [ParticleSystem.velocities ParticleSystem.withBuffers] in Hset.
  rewrite Hset by (split; assumption). rewrite bind_ret.
  eexists. split; [reflexivity|].
  cbn [TetFlipSimulator.mesh TetFlipSimulator.withParticles
       TetFlipSimulator.particles ParticleSystem.positions
       ParticleSystem.velocities ParticleSystem.withBuffers].
  split; [done|]. split; [done|].
  assert (Hslot : (s * 3 < length (ParticleSystem.positions ps))%nat) by lia.
  pose proof (rd_of_slot _ _ _
                (g2pLoop_slot m (ParticleSystem.positions ps)
                              (ParticleSystem.velocities ps) s Hslot))
    as (H0 & H1 & H2).
  fold v' in H0, H1, H2. fold p in H0, H1, H2.
  rewrite H0, H1, H2.
  unfold TetFlipSimulator.g2pParticle. fold p px py pz tetIndex.
  split.
  - intros Hfound. rewrite decide_True by done.
    pose proof (interpolate_unfold m (Z.to_nat tetIndex) px py pz) as Hi.
    cbv zeta in Hi. fold tet bary in Hi. fold nv in Hi. fold interpolated in Hi.
    rewrite Hi.
    rewrite rd_wr_ne by lia. rewrite rd_wr_ne by lia.
    rewrite rd_wr_eq by lia.
    rewrite rd_wr_ne by lia. rewrite rd_wr_eq by (rewrite length_wr; lia).
    rewrite rd_wr_eq by (rewrite !length_wr; lia).
    done.
  - intros Hnone. rewrite decide_False by lia. done.
Qed.

(** A small instance: mesh [movingCube], capacity 2.  The particle of
    slot 0 lies in tetrahedron 4, whose nodes 0, 3, 5, 6 move at
    [x]-velocities 0, 3, 5, 6 and carry the weights 5/8, 1/8, 1/8, 1/8. *)
Lemma meshToParticles_replaces_witness :
  exists sim',
    TetFlipSimulator.meshToParticles Examples.smallSim = Js.ret sim' /\
    Js.rd (ParticleSystem.velocities (TetFlipSimulator.particles sim')) 0
      = Q2Qc (7 # 4).
Proof.
  destruct (meshToParticles_replaces Examples.smallSim 0)
    as (sim' & Hret & _ & _ & Hfound & _).
  - exact unitCube_wf.
  - split; reflexivity.
  - vm_compute. lia.
  - exists sim'. split; [exact Hret|].
    destruct Hfound as (H0 & _ & _); [vm_compute; discriminate|].
    etransitivity; [exact H0|]. compute_done.
Defined.

(** ** Advection and collision *)

Section AdvectCollide.
Import Js TetFlipSimulator.

Lemma length_addAt a i v : length (addAt a i v) = length a.
Proof. apply length_wr. Qed.

Lemma lookup_addAt a i v j :
  addAt a i v !! j
  = if decide (i = j) then (fun x => x + v) <$> a !! j else a !! j.
Proof.
  unfold addAt. rewrite lookup_wr. destruct (decide (i = j)) as [->|]; [|done].
  unfold rd. by destruct (a !! j).
Qed.

Lemma addAt_zero a i : addAt a i 0 = a.
Proof.
  unfold addAt, wr, rd. destruct (a !! i) as [x|] eqn:E.
  - rewrite Qcplus_0_r. by apply list_insert_id.
  - apply list_insert_ge. by apply lookup_ge_None_1.
Qed.

Variables (dt : Qc) (velocities : list Qc).

Lemma length_advectParticle a p : length (advectParticle dt velocities a p) = length a.
Proof. unfold advectParticle. by rewrite !length_addAt. Qed.

Lemma advectParticle_other a s s' :
  s ≠ s' -> slot (advectParticle dt velocities a (s' * 3)) s = slot a s.
Proof.
  intros Hne. unfold advectParticle, slot. rewrite !lookup_addAt.
  repeat (rewrite decide_False by lia). done.
Qed.

Lemma advectParticle_local a a' s :
  slot a s = slot a' s ->
  slot (advectParticle dt velocities a (s * 3)) s
  = slot (advectParticle dt velocities a' (s * 3)) s.
Proof.
  intros Hs. unfold advectParticle, slot in *. rewrite !lookup_addAt.
  injection Hs as -> -> ->. done.
Qed.

Lemma advectLoop_slot positions s :
  (s * 3 < length positions)%nat ->
  slot (advectLoop dt positions velocities) s
  = slot (advectParticle dt velocities positions (s * 3)) s.
Proof.
  intros Hs. unfold advectLoop.
  apply (slot_loop slot (advectParticle dt velocities));
    [|exact advectParticle_local|done].
  intros st a b Hab. by apply advectParticle_other.
Qed.

Variables (dmin dmax : Qc * Qc * Qc).

Lemma collideAxis_other lo hi acc idx j :
  idx ≠ j ->
  (collideAxis lo hi acc idx).1 !! j = acc.1 !! j /\
  (collideAxis lo hi acc idx).2 !! j = acc.2 !! j.
Proof.
  intros Hne. destruct acc as [pos vel]. unfold collideAxis.
  destruct (ltb (rd pos idx) lo); [|destruct (ltb hi (rd pos idx))];
    cbn [fst snd]; rewrite ?lookup_wr, ?decide_False by done; done.
Qed.

(** Two states that agree at index [j] still agree there after the
    boundary test of any coordinate. *)
Lemma collideAxis_agree lo hi acc acc' idx j :
  acc.1 !! j = acc'.1 !! j -> acc.2 !! j = acc'.2 !! j ->
  (collideAxis lo hi acc idx).1 !! j = (collideAxis lo hi acc' idx).1 !! j /\
  (collideAxis lo hi acc idx).2 !! j = (collideAxis lo hi acc' idx).2 !! j.
Proof.
  intros Hp Hv. destruct (decide (idx = j)) as [->|Hne].
  - destruct acc as [pos vel], acc' as [pos' vel']. cbn [fst snd] in Hp, Hv.
    unfold collideAxis, rd. rewrite <- Hp, <- Hv.
    destruct (ltb (default 0 (pos !! j)) lo);
      [|destruct (ltb hi (default 0 (pos !! j)))];
      cbn [fst snd]; rewrite ?lookup_wr, ?decide_True by done;
      rewrite <- ?Hp, <- ?Hv; done.
  - destruct (collideAxis_other lo hi acc idx j Hne) as [-> ->].
    destruct (collideAxis_other lo hi acc' idx j Hne) as [-> ->]. done.
Qed.

Lemma collideParticle_other acc p j :
  j ≠ (p + 0)%nat -> j ≠ (p + 1)%nat -> j ≠ (p + 2)%nat ->
  (collideParticle dmin dmax acc p).1 !! j = acc.1 !! j /\
  (collideParticle dmin dmax acc p).2 !! j = acc.2 !! j.
Proof.
  intros H0 H1 H2. unfold collideParticle.
  destruct dmin as [[minx miny] minz], dmax as [[maxx maxy] maxz].
  destruct (collideAxis_other minz maxz
              (collideAxis miny maxy (collideAxis minx maxx acc (p + 0)) (p + 1))
              (p + 2) j) as [-> ->]; [done|].
  destruct (collideAxis_other miny maxy (collideAxis minx maxx acc (p + 0))
              (p + 1) j) as [-> ->]; [done|].
  by apply collideAxis_other.
Qed.

Lemma collideParticle_agree acc acc' p j :
  acc.1 !! j = acc'.1 !! j -> acc.2 !! j = acc'.2 !! j ->
  (collideParticle dmin dmax acc p).1 !! j
    = (collideParticle dmin dmax acc' p).1 !! j /\
  (collideParticle dmin dmax acc p).2 !! j
    = (collideParticle dmin dmax acc' p).2 !! j.
Proof.
  intros Hp Hv. unfold collideParticle.
  destruct dmin as [[minx miny] minz], dmax as [[maxx maxy] maxz].
  apply collideAxis_agree; apply collideAxis_agree; by apply collideAxis_agree.
Qed.

Lemma collideLoop_slot positions s :
  (s * 3 < length positions)%nat ->
  let after := collideLoop dmin dmax positions velocities in
  let alone := collideParticle dmin dmax (positions, velocities) (s * 3) in
  slot after.1 s = slot alone.1 s /\ slot after.2 s = slot alone.2 s.
Proof.
  intros Hs after alone.
  pose proof (slot_loop (fun st s => (slot st.1 s, slot st.2 s))
                (collideParticle dmin dmax)) as Hloop.
  cbv beta in Hloop.
  assert (Heq : (slot after.1 s, slot after.2 s) = (slot alone.1 s, slot alone.2 s)).
  { apply Hloop; [| |exact Hs].
    - intros st a b Hab. unfold slot.
      destruct (collideParticle_other st (b * 3) (a * 3)) as [-> ->]; [lia..|].
      destruct (collideParticle_other st (b * 3) (a * 3 + 1)) as [-> ->]; [lia..|].
      destruct (collideParticle_other st (b * 3) (a * 3 + 2)) as [-> ->]; [lia..|].
      done.
    - intros st st' a Hobs. unfold slot in *.
      injection Hobs as Hp0 Hp1 Hp2 Hv0 Hv1 Hv2.
      destruct (collideParticle_agree st st' (a * 3) (a * 3) Hp0 Hv0) as [-> ->].
      destruct (collideParticle_agree st st' (a * 3) (a * 3 + 1) Hp1 Hv1) as [-> ->].
      destruct (collideParticle_agree st st' (a * 3) (a * 3 + 2) Hp2 Hv2) as [-> ->].
      done. }
  split; [exact (f_equal fst Heq)|exact (f_equal snd Heq)].
Qed.

End AdvectCollide.

(** ** P2G *)

Section ParticleToGrid.
Import Js TetrahedralMesh TetFlipSimulator.

(** The sum of the entries of an accumulator array. *)
Lemma total_addAt (a : list Qc) i v :
  (i < length a)%nat ->
  foldr Qcplus 0 (addAt a i v) = foldr Qcplus 0 a + v.
Proof.
  unfold addAt, wr, rd. revert i. induction a as [|x a IH]; intros i Hi.
  - cbn [length] in Hi. lia.
  - destruct i as [|i].
    + cbn [lookup list_lookup from_option id insert list_insert foldr]. ring.
    + cbn [length] in Hi.
      cbn [lookup list_lookup from_option id insert list_insert foldr].
      rewrite IH by lia. ring.
Qed.

Variables (tets : list N) (tetCount : nat) (positions velocities : list Qc).

Lemma length_scatter vx vy vz tet bary acc i :
  length (scatter vx vy vz tet bary acc i).1 = length acc.1 /\
  length (scatter vx vy vz tet bary acc i).2 = length acc.2.
Proof.
  destruct acc as [ns ws]. unfold scatter. cbn [fst snd].
  by rewrite !length_addAt.
Qed.

Lemma length_p2gParticle acc p :
  length (p2gParticle tets tetCount positions velocities acc p).1 = length acc.1 /\
  length (p2gParticle tets tetCount positions velocities acc p).2 = length acc.2.
Proof.
  unfold p2gParticle. destruct (decide _); [|done].
  cbn [seq foldl].
  repeat match goal with
         | |- context [scatter ?vx ?vy ?vz ?tet ?bary ?a ?i] =>
             let H1 := fresh in let H2 := fresh in
             destruct (length_scatter vx vy vz tet bary a i) as [H1 H2];
             rewrite H1, H2; clear H1 H2
         end.
  done.
Qed.

Lemma length_p2g_prefix acc (l : list nat) :
  length (foldl (p2gParticle tets tetCount positions velocities) acc l).1
    = length acc.1 /\
  length (foldl (p2gParticle tets tetCount positions velocities) acc l).2
    = length acc.2.
Proof.
  revert acc. induction l as [|p l IH]; intros acc; [done|].
  cbn [foldl]. destruct (IH (p2gParticle tets tetCount positions velocities acc p))
    as [-> ->]. apply length_p2gParticle.
Qed.


(** Scattering a zero velocity leaves the velocity accumulators alone. *)
Lemma scatter_zero tet bary ns ws i :
  scatter 0 0 0 tet bary (ns, ws) i
  = (ns, addAt ws (N.to_nat (rdN tet i)) (rd bary i)).
Proof.
  unfold scatter. rewrite Qcmult_0_r. by rewrite !addAt_zero.
Qed.

Lemma p2gParticle_inactive acc p :
  rd positions (p + 0) = 0 -> rd positions (p + 1) = 0 -> rd positions (p + 2) = 0 ->
  rd velocities (p + 0) = 0 -> rd velocities (p + 1) = 0 -> rd velocities (p + 2) = 0 ->
  let tetIndex := findContainingTetrahedron acc.1 tets tetCount 0 0 0 in
  let tet := getTetrahedron tets (Z.to_nat tetIndex) in
  let bary :=
    computeBarycentricCoordinates acc.1 tets (Z.to_nat tetIndex) 0 0 0 in
  p2gParticle tets tetCount positions velocities acc p
  = if decide (0 <= tetIndex)%Z
    then (acc.1,
          foldl (fun ws i => addAt ws (N.to_nat (rdN tet i)) (rd bary i))
                acc.2 (seq 0 4))
    else acc.
Proof.
  intros Hx Hy Hz Hvx Hvy Hvz tetIndex tet bary.
  unfold p2gParticle. rewrite Hx, Hy, Hz, Hvx, Hvy, Hvz.
  fold tetIndex. destruct (decide (0 <= tetIndex)%Z); [|done].
  fold tet bary. destruct acc as [ns ws]. cbn [seq foldl fst snd].
  by rewrite !scatter_zero.
Qed.

End ParticleToGrid.

Section InactiveSlots.
Import Js TetrahedralMesh TetFlipSimulator.

Lemma length_resetNodes ns : length (resetNodes ns) = length ns.
Proof.
  unfold resetNodes. apply foldl_length. intros a b. by rewrite !length_wr.
Qed.

Lemma rdN_getTetrahedron tets t :
  rdN (getTetrahedron tets t) 0 = rdN tets (t * 4) /\
  rdN (getTetrahedron tets t) 1 = rdN tets (t * 4 + 1) /\
  rdN (getTetrahedron tets t) 2 = rdN tets (t * 4 + 2) /\
  rdN (getTetrahedron tets t) 3 = rdN tets (t * 4 + 3).
Proof. done. Qed.

Lemma tet_index_valid (m : TetrahedralMesh.t) t i :
  wf m -> (t < tetCount m)%nat -> (i < 4)%nat ->
  (N.to_nat (rdN (getTetrahedron (tetrahedra m) t) i) < nodeCount m)%nat.
Proof.
  intros (_ & _ & Hlen & Hall) Ht Hi.
  assert (Hin : forall j, (j < length (tetrahedra m))%nat ->
                          (N.to_nat (rdN (tetrahedra m) j) < nodeCount m)%nat).
  { intros j Hj. unfold rdN.
    destruct (lookup_lt_is_Some_2 _ _ Hj) as [n Hn]. rewrite Hn.
    by apply (Forall_lookup_1 _ _ _ _ Hall Hn). }
  destruct (rdN_getTetrahedron (tetrahedra m) t) as (H0 & H1 & H2 & H3).
  destruct i as [|[|[|[|i]]]]; [rewrite H0|rewrite H1|rewrite H2|rewrite H3|lia];
    apply Hin; lia.
Qed.

(** What a located slot of zero position and zero velocity does to the
    accumulators: nothing to the velocity sums, and the four weights,
    which are non-negative and add up to one, to the weight sums. *)
Lemma p2gParticle_inactive_total (m : TetrahedralMesh.t) positions velocities ns ws p :
  wf m -> length ws = nodeCount m ->
  rd positions (p + 0) = 0 -> rd positions (p + 1) = 0 -> rd positions (p + 2) = 0 ->
  rd velocities (p + 0) = 0 -> rd velocities (p + 1) = 0 -> rd velocities (p + 2) = 0 ->
  let tetIndex := findContainingTetrahedron ns (tetrahedra m) (tetCount m) 0 0 0 in
  let tet := getTetrahedron (tetrahedra m) (Z.to_nat tetIndex) in
  let bary :=
    computeBarycentricCoordinates ns (tetrahedra m) (Z.to_nat tetIndex) 0 0 0 in
  let after := p2gParticle (tetrahedra m) (tetCount m) positions velocities (ns, ws) p in
  (tetIndex = (-1)%Z -> after = (ns, ws)) /\
  ((0 <= tetIndex)%Z ->
   after.1 = ns /\
   after.2 = foldl (fun ws i => addAt ws (N.to_nat (rdN tet i)) (rd bary i))
                   ws (seq 0 4) /\
   allNonNegative bary = true /\
   foldr Qcplus 0 after.2 = foldr Qcplus 0 ws + 1).
Proof.
  intros Hwf Hws Hx Hy Hz Hvx Hvy Hvz tetIndex tet bary after.
  pose proof (p2gParticle_inactive (tetrahedra m) (tetCount m) positions velocities
                (ns, ws) p Hx Hy Hz Hvx Hvy Hvz) as Hstep.
  cbv zeta in Hstep. cbn [fst snd] in Hstep.
  fold tetIndex in Hstep. fold tet bary in Hstep. fold after in Hstep.
  split.
  - intros Hnone. rewrite Hstep, decide_False by lia. done.
  - intros Hfound. rewrite decide_True in Hstep by done. rewrite Hstep.
    cbn [fst snd]. split; [done|]. split; [done|].
    assert (Ht : tetIndex = Z.of_nat (Z.to_nat tetIndex)) by lia.
    apply find_found in Ht as (Hlt & Hmatch & _).
    fold bary in Hmatch. split; [exact Hmatch|].
    destruct (barycentric_sum
                (nodePosition ns (rdN tet 0)) (nodePosition ns (rdN tet 1))
                (nodePosition ns (rdN tet 2)) (nodePosition ns (rdN tet 3))
                (0, 0, 0)) as (b0 & b1 & b2 & b3 & Hb & Hsum).
    assert (Hbary : bary = [ b0; b1; b2; b3 ]) by exact Hb.
    rewrite Hbary. cbn [seq foldl].
    change (rd [b0; b1; b2; b3] 0) with b0.
    change (rd [b0; b1; b2; b3] 1) with b1.
    change (rd [b0; b1; b2; b3] 2) with b2.
    change (rd [b0; b1; b2; b3] 3) with b3.
    pose proof (fun i Hi => tet_index_valid m (Z.to_nat tetIndex) i Hwf Hlt Hi) as Hv.
    fold tet in Hv.
    rewrite !total_addAt by (rewrite ?length_addAt, Hws; apply Hv; lia).
    rewrite <- Hsum. ring.
Qed.

End InactiveSlots.

Section AllSlots.
Import Js TetFlipSimulator.


Lemma advectParticle_rd dt velocities positions p :
  (p + 2 < length positions)%nat ->
  rd (advectParticle dt velocities positions p) (p + 0)
    = rd positions (p + 0) + rd velocities (p + 0) * dt /\
  rd (advectParticle dt velocities positions p) (p + 1)
    = rd positions (p + 1) + rd velocities (p + 1) * dt /\
  rd (advectParticle dt velocities positions p) (p + 2)
    = rd positions (p + 2) + rd velocities (p + 2) * dt.
Proof.
  intros Hp. unfold advectParticle, addAt.
  repeat split.
  - rewrite rd_wr_ne by lia. rewrite rd_wr_ne by lia. by rewrite rd_wr_eq by lia.
  - rewrite rd_wr_ne by lia. rewrite rd_wr_eq by (rewrite length_wr; lia).
    by rewrite rd_wr_ne by lia.
  - rewrite rd_wr_eq by (rewrite !length_wr; lia).
    rewrite rd_wr_ne by lia. by rewrite rd_wr_ne by lia.
Qed.

End AllSlots.

(** ** The arrays [particlesToMesh] writes *)

Section PositionsOverwritten.
Import Js TetrahedralMesh TetFlipSimulator.

Lemma particlesToMesh_returns sim :
  exists ns,
    particlesToMesh sim
    = ret (withMesh sim (setNodeVelocities (withNodes (mesh sim) ns) ns)).
Proof.
  unfold particlesToMesh.
  destruct (p2gLoop _ _ _ _ _) as [ns ws]. eexists. reflexivity.
Qed.

(** After [particlesToMesh] the node position array and the node velocity
    array have the same contents, whatever the simulator state was. *)
Lemma particlesToMesh_aliases sim :
  exists sim',
    particlesToMesh sim = ret sim' /\
    nodes (mesh sim') = nodeVelocities (mesh sim') /\
    particles sim' = particles sim.
Proof.
  destruct (particlesToMesh_returns sim) as [ns ->].
  eexists. split; [reflexivity|]. done.
Qed.

Lemma afterP2G_returned sim :
  result (particlesToMesh sim) = Returned (Examples.afterP2G sim).
Proof.
  unfold Examples.afterP2G, Examples.returned.
  destruct (particlesToMesh_returns sim) as [ns ->]. reflexivity.
Qed.

End PositionsOverwritten.

(** C1 fails on the code.  On the simulator as [initialize()] builds it
    (the [(8,8,8)] mesh over [[-1,1]^3], capacity 1000), the first node
    lies at [(-1,-1,-1)]; one [particlesToMesh] returns normally and
    leaves every entry of the node position array at [0], the same
    contents as the node velocity array. *)
Theorem particlesToMesh_overwrites_positions :
  let sim := Examples.defaultSim in
  let sim' := Examples.afterP2G sim in
  Js.result (TetFlipSimulator.particlesToMesh sim) = Js.Returned sim' /\
  take 3 (TetrahedralMesh.nodes (TetFlipSimulator.mesh sim)) = [ - (1); - (1); - (1) ] /\
  TetrahedralMesh.nodes (TetFlipSimulator.mesh sim') = replicate 2187 0 /\
  TetrahedralMesh.nodeVelocities (TetFlipSimulator.mesh sim') = replicate 2187 0.
Proof.
  split; [apply afterP2G_returned|].
  split; [compute_done|]. split; compute_done.
Qed.

(** The same on the small instance, where the one live particle moves at
    [(1, 2, 0)]: the four nodes of tetrahedron 0 end at position
    [(1/2, 1, 0)], the particle velocity divided by the capacity 2. *)
Lemma particlesToMesh_small_instance :
  let sim' := Examples.afterP2G Examples.smallSim in
  Js.result (TetFlipSimulator.particlesToMesh Examples.smallSim) = Js.Returned sim' /\
  take 6 (TetrahedralMesh.nodes (TetFlipSimulator.mesh sim'))
    = [ Q2Qc (1 # 2); 1; 0; Q2Qc (1 # 2); 1; 0 ] /\
  take 6 (TetrahedralMesh.nodes (TetFlipSimulator.mesh Examples.smallSim))
    = [ 0; 0; 0; 1; 0; 0 ].
Proof.
  split; [apply afterP2G_returned|].
  split; compute_done.
Qed.

(** ** Pressure solve *)

Section Jacobi.
Import Js PressureSolver.

(** A loop over [a, a+k) whose body rewrites entry [i] as a function of
    that entry alone. *)
Lemma foldl_pointwise (g : nat -> Qc -> Qc) (step : list Qc -> nat -> list Qc) :
  (forall p i j,
      step p i !! j = if decide (i = j) then g i <$> p !! j else p !! j) ->
  forall k a p j,
    foldl step p (seq a k) !! j
    = if decide (a <= j < a + k)%nat then g j <$> p !! j else p !! j.
Proof.
  intros Hstep. induction k as [|k IH]; intros a p j.
  - cbn [seq foldl]. rewrite decide_False by lia. done.
  - cbn [seq foldl]. rewrite IH, !Hstep.
    destruct (decide (a = j)) as [->|Hne].
    + rewrite decide_False by lia. rewrite decide_True by lia. done.
    + destruct (decide (S a <= j < S a + k)%nat).
      * rewrite decide_True by lia. done.
      * rewrite decide_False by lia. done.
Qed.

Lemma scaledRhs_scales n divergence dt :
  length divergence = n ->
  scaledRhs n divergence dt = (fun d => d * dt) <$> divergence.
Proof.
  intros Hn. apply list_eq. intros j. unfold scaledRhs.
  rewrite (foldl_pointwise (fun _ d => d * dt)).
  - rewrite list_lookup_fmap. destruct (decide (0 <= j < 0 + n)%nat); [done|].
    rewrite (lookup_ge_None_2 divergence j) by lia. done.
  - intros p i j'. rewrite lookup_wr.
    destruct (decide (i = j')) as [->|]; [|done].
    unfold rd. by destruct (p !! j').
Qed.

Lemma neighborSum_from pressureOld neighbors sum count :
  foldl (fun '(sum, count) n => (sum + rd pressureOld (N.to_nat n), S count))
        (sum, count) neighbors
  = (sum + foldr Qcplus 0 ((fun n => rd pressureOld (N.to_nat n)) <$> neighbors),
     (count + length neighbors)%nat).
Proof.
  revert sum count. induction neighbors as [|n ns IH]; intros sum count.
  - cbn [foldl fmap list_fmap foldr length]. f_equal; [ring|lia].
  - cbn [foldl fmap list_fmap foldr length]. rewrite IH. f_equal; [ring|lia].
Qed.

Lemma updateNode_lookup m rhs pressureOld pressure i j :
  updateNode m rhs pressureOld pressure i !! j
  = if decide (i = j)
    then (fun p_i =>
            match getNeighbors m i with
            | [] => p_i
            | _ =>
                (foldr Qcplus 0
                   ((fun n => rd pressureOld (N.to_nat n)) <$> getNeighbors m i)
                 - rd rhs i) / of_nat (length (getNeighbors m i))
            end) <$> pressure !! j
    else pressure !! j.
Proof.
  unfold updateNode, neighborSum. rewrite neighborSum_from.
  destruct (getNeighbors m i) as [|n ns] eqn:En.
  - cbn [length]. rewrite decide_False by lia.
    destruct (decide (i = j)); [|done]. by destruct (pressure !! j).
  - rewrite decide_True by (cbn [length]; lia).
    rewrite lookup_wr. destruct (decide (i = j)); [|done].
    rewrite Qcplus_0_l. done.
Qed.

(** One pass of the code equals one step of the specification, when the
    pass starts from [pressureOld = pressure]. *)
Lemma sweep_jacobiStep (m : TetrahedralMesh.t) rhs pressure :
  length pressure = TetrahedralMesh.nodeCount m ->
  sweep m rhs pressure pressure = jacobiStep m rhs pressure.
Proof.
  intros Hn. apply list_eq. intros j. unfold sweep, jacobiStep.
  rewrite list_lookup_imap.
  rewrite (foldl_pointwise _ _ (updateNode_lookup m rhs pressure)).
  destruct (decide (0 <= j < 0 + TetrahedralMesh.nodeCount m)%nat); [done|].
  rewrite (lookup_ge_None_2 pressure j) by lia. done.
Qed.

Lemma length_jacobiStep m rhs pressure :
  length (jacobiStep m rhs pressure) = length pressure.
Proof. unfold jacobiStep. apply length_imap. Qed.

End Jacobi.

Section Convergence.
Import Js PressureSolver.

Lemma max_lt (d x tol : Qc) : max d x < tol <-> d < tol /\ x < tol.
Proof.
  unfold max, ltb. case_bool_decide as Hdx.
  - split; [|tauto]. intros Hx. split; [|done]. by apply Qclt_trans with x.
  - apply Qcnot_lt_le in Hdx. split; [|tauto]. intros Hd. split; [done|].
    by apply Qcle_lt_trans with d.
Qed.

Lemma foldl_max_lt (h : nat -> Qc) (tol : Qc) k a d0 :
  foldl (fun d i => max d (h i)) d0 (seq a k) < tol
  <-> d0 < tol /\ forall i, (a <= i < a + k)%nat -> h i < tol.
Proof.
  revert a d0. induction k as [|k IH]; intros a d0.
  - cbn [seq foldl]. split; [|tauto]. intros Hd. split; [done|]. intros i Hi. lia.
  - cbn [seq foldl]. rewrite IH, max_lt. split.
    + intros [[Hd Ha] Hrest]. split; [done|]. intros i Hi.
      destruct (decide (i = a)) as [->|Hne]; [done|]. apply Hrest. lia.
    + intros [Hd Hall]. split; [split; [done|]|].
      * apply Hall. lia.
      * intros i Hi. apply Hall. lia.
Qed.

Lemma maxDiff_converged (s : PressureSolver.t) n pressure pressureOld :
  0 < tolerance s ->
  ltb (maxDiff n pressure pressureOld) (tolerance s) = true
  <-> converged s n pressure pressureOld.
Proof.
  intros Htol. unfold ltb, maxDiff, converged.
  rewrite bool_decide_eq_true, foldl_max_lt. split.
  - intros [_ Hall] i Hi. apply Hall. lia.
  - intros Hall. split; [done|]. intros i Hi. apply Hall. lia.
Qed.

Lemma iterate_jacobi (s : PressureSolver.t) (m : TetrahedralMesh.t) rhs :
  0 < tolerance s ->
  forall remaining pressureOld pressure,
    length pressureOld = TetrahedralMesh.nodeCount m ->
    length pressure = TetrahedralMesh.nodeCount m ->
    let step := jacobiStep m rhs in
    let nodeCount := TetrahedralMesh.nodeCount m in
    exists n,
      iterate s m rhs remaining pressureOld pressure
        = ret (Nat.iter n step pressure, n) /\
      (n <= remaining)%nat /\
      ((0 < remaining)%nat -> (0 < n)%nat) /\
      (forall k, (S k < n)%nat ->
                 ~ converged s nodeCount
                     (Nat.iter (S k) step pressure) (Nat.iter k step pressure)) /\
      ((n < remaining)%nat ->
       exists k, n = S k /\
                 converged s nodeCount
                   (Nat.iter (S k) step pressure) (Nat.iter k step pressure)).
Proof.
  intros Htol remaining.
  induction remaining as [|r IH]; intros pressureOld pressure Hold Hp step nodeCount.
  - exists 0%nat. cbn [iterate Nat.iter nat_rect].
    split; [done|]. split; [lia|]. split; [lia|]. split; intros; lia.
  - cbn [iterate].
    rewrite typedSet_fits by lia.
    rewrite drop_ge by lia. rewrite app_nil_r, bind_ret.
    rewrite sweep_jacobiStep by done. fold step nodeCount.
    destruct (ltb (maxDiff nodeCount (step pressure) pressure) (tolerance s)) eqn:Hc.
    + apply maxDiff_converged in Hc; [|done].
      exists 1%nat. cbn [Nat.iter nat_rect].
      split; [done|]. split; [lia|]. split; [lia|]. split; [intros; lia|].
      intros _. exists 0%nat. done.
    + assert (Hnc : ~ converged s nodeCount (step pressure) pressure).
      { intros H. apply maxDiff_converged in H; [|done]. congruence. }
      destruct (IH pressure (step pressure)) as (n & Hrun & Hle & Hpos & Hcont & Hstop).
      { done. }
      { unfold step. by rewrite length_jacobiStep. }
      rewrite Hrun, bind_ret. cbn [fst snd].
      assert (E : forall j, Nat.iter (S j) step pressure
                            = Nat.iter j step (step pressure))
        by (intros j; apply Nat.iter_succ_r).
      exists (S n). rewrite (E n).
      split; [done|]. split; [lia|]. split; [lia|]. split.
      * intros k Hk. destruct k as [|k]; [exact Hnc|].
        rewrite (E (S k)), (E k). apply Hcont. lia.
      * intros Hlt. destruct Hstop as (k & -> & Hk); [lia|].
        exists (S k). split; [done|].
        rewrite (E (S k)), (E k). exact Hk.
Qed.

End Convergence.

(** C6.  For a mesh that satisfies the mesh invariant and divergence and
    pressure arrays of one entry per node, the solver with its default
    settings (50 iterations, tolerance [1e-4]) returns normally after [n]
    passes with the pressure [jacobiStep^n], where [jacobiStep] is the
    Jacobi step of the specification on the right-hand side
    [divergence * dt]: [1 <= n <= 50]; after each pass before the last
    some node had changed by at least the tolerance; and when [n < 50]
    the last pass changed every node by less than the tolerance. *)
Theorem conjugateGradient_jacobi
    (m : TetrahedralMesh.t) (divergence pressure : list Qc) (dt : Qc) :
  TetrahedralMesh.wf m ->
  length divergence = TetrahedralMesh.nodeCount m ->
  length pressure = TetrahedralMesh.nodeCount m ->
  let s := PressureSolver.new in
  let nodeCount := TetrahedralMesh.nodeCount m in
  let rhs := (fun d => d * dt) <$> divergence in
  let step := PressureSolver.jacobiStep m rhs in
  exists n,
    PressureSolver.conjugateGradient s m divergence pressure dt
      = Js.ret (Nat.iter n step pressure, n) /\
    (1 <= n <= 50)%nat /\
    (forall k, (S k < n)%nat ->
               ~ PressureSolver.converged s nodeCount
                   (Nat.iter (S k) step pressure) (Nat.iter k step pressure)) /\
    ((n < 50)%nat ->
     exists k, n = S k /\
               PressureSolver.converged s nodeCount
                 (Nat.iter (S k) step pressure) (Nat.iter k step pressure)).
Proof.
  intros _ Hd Hp s nodeCount rhs step.
  unfold PressureSolver.conjugateGradient.
  rewrite scaledRhs_scales by done. fold rhs.
  destruct (iterate_jacobi s m rhs eq_refl (PressureSolver.maxIterations s)
              (replicate (TetrahedralMesh.nodeCount m) 0) pressure)
    as (n & Hrun & Hle & Hpos & Hcont & Hstop).
  { apply length_replicate. }
  { done. }
  exists n. split; [exact Hrun|].
  change (PressureSolver.maxIterations s) with 50%nat in *.
  split; [lia|]. split; [exact Hcont|exact Hstop].
Qed.

(** The one-cell unit cube, unit divergence at every node, zero initial
    pressure. *)
Lemma conjugateGradient_jacobi_witness :
  let rhs := (fun d => d * Examples.c_0_016) <$> replicate 8 1 in
  exists n,
    PressureSolver.conjugateGradient PressureSolver.new Examples.unitCube
      (replicate 8 1) (replicate 8 0) Examples.c_0_016
    = Js.ret (Nat.iter n (PressureSolver.jacobiStep Examples.unitCube rhs)
                (replicate 8 0), n) /\
    (1 <= n <= 50)%nat.
Proof.
  destruct (conjugateGradient_jacobi Examples.unitCube
              (replicate 8 1) (replicate 8 0) Examples.c_0_016)
    as (n & Hrun & Hn & _).
  - exact unitCube_wf.
  - vm_compute. reflexivity.
  - vm_compute. reflexivity.
  - exists n. split; [exact Hrun|exact Hn].
Defined.

(** * Further properties of the code *)

(** ** Neighbour sets *)

Section Neighbors.
Import Js PressureSolver.

Lemma elem_of_setAdd s n x : x ∈ setAdd s n <-> x ∈ s \/ x = n.
Proof.
  unfold setAdd. destruct (decide (n ∈ s)) as [Hin|Hnin].
  - split; [by left|]. intros [H|H]; [done|by subst].
  - rewrite elem_of_app, list_elem_of_singleton. done.
Qed.

Lemma NoDup_setAdd s n : NoDup s -> NoDup (setAdd s n).
Proof.
  intros Hs. unfold setAdd. destruct (decide (n ∈ s)) as [Hin|Hnin]; [done|].
  apply NoDup_app. split; [done|]. split.
  - intros x Hx Hx'. apply list_elem_of_singleton in Hx' as ->. done.
  - apply NoDup_singleton.
Qed.

Lemma addOthers_spec (self : N) (l s : list N) :
  let f := fun (s : list N) n => if decide (n ≠ self) then setAdd s n else s in
  (forall x, x ∈ foldl f s l <-> x ∈ s \/ (x ∈ l /\ x ≠ self)) /\
  (NoDup s -> NoDup (foldl f s l)).
Proof.
  intros f. revert s. induction l as [|n l IH]; intros s.
  - cbn [foldl]. split; [|done]. intros x. rewrite elem_of_nil. tauto.
  - cbn [foldl]. destruct (IH (f s n)) as [IHin IHnd]. split.
    + intros x. rewrite IHin, elem_of_cons. unfold f at 1.
      destruct (decide (n ≠ self)) as [Hn|Hn].
      * rewrite elem_of_setAdd. split.
        -- intros [[H|H]|[H H']]; [tauto|subst; tauto|tauto].
        -- intros [H|[[H|H] H']]; [tauto|subst; tauto|tauto].
      * apply dec_stable in Hn. subst n. tauto.
    + intros Hs. apply IHnd. unfold f.
      destruct (decide (n ≠ self)); [by apply NoDup_setAdd|done].
Qed.

Lemma addTetNeighbors_spec tets nodeIndex (ts : list nat) (s : list N) :
  (forall x,
      x ∈ foldl (addTetNeighbors tets nodeIndex) s ts <->
      x ∈ s \/
      (x ≠ N.of_nat nodeIndex /\
       exists t, t ∈ ts /\
                 N.of_nat nodeIndex ∈ TetrahedralMesh.getTetrahedron tets t /\
                 x ∈ TetrahedralMesh.getTetrahedron tets t)) /\
  (NoDup s -> NoDup (foldl (addTetNeighbors tets nodeIndex) s ts)).
Proof.
  revert s. induction ts as [|t ts IH]; intros s.
  - cbn [foldl]. split; [|done]. intros x. split; [by left|].
    intros [?|(_ & t & Ht & _)]; [done|]. by apply elem_of_nil in Ht.
  - cbn [foldl]. destruct (IH (addTetNeighbors tets nodeIndex s t)) as [IHin IHnd].
    pose proof (addOthers_spec (N.of_nat nodeIndex)
                  (TetrahedralMesh.getTetrahedron tets t) s) as [Hin Hnd].
    split.
    + intros x. rewrite IHin. unfold addTetNeighbors at 1.
      destruct (decide (N.of_nat nodeIndex ∈ TetrahedralMesh.getTetrahedron tets t))
        as [Hself|Hself].
      * rewrite Hin. split.
        -- intros [[?|[? ?]]|(? & u & ? & ? & ?)].
           ++ by left.
           ++ right. split; [done|]. exists t. split; [by left|done].
           ++ right. split; [done|]. exists u. split; [by right|done].
        -- intros [?|(? & u & Hu & ? & ?)]; [by left; left|].
           apply elem_of_cons in Hu as [->|Hu].
           ++ left. right. done.
           ++ right. split; [done|]. by exists u.
      * split.
        -- intros [?|(? & u & ? & ? & ?)]; [by left|].
           right. split; [done|]. exists u. split; [by right|done].
        -- intros [?|(? & u & Hu & ? & ?)]; [by left|].
           apply elem_of_cons in Hu as [->|Hu]; [done|].
           right. split; [done|]. by exists u.
    + intros Hs. apply IHnd. unfold addTetNeighbors.
      destruct (decide _); [by apply Hnd|done].
Qed.

End Neighbors.

(** The neighbour list of a node has no duplicate and never holds the
    node itself; it holds exactly the other entries of the tetrahedra of
    the mesh that have the node among their four entries.  Hence being a
    neighbour is symmetric. *)
Theorem getNeighbors_spec (m : TetrahedralMesh.t) (i : nat) :
  let tetOf t :=
    TetrahedralMesh.getTetrahedron (TetrahedralMesh.tetrahedra m) t in
  NoDup (PressureSolver.getNeighbors m i) /\
  (N.of_nat i ∉ PressureSolver.getNeighbors m i) /\
  (forall n,
      n ∈ PressureSolver.getNeighbors m i <->
      n ≠ N.of_nat i /\
      exists t, (t < TetrahedralMesh.tetCount m)%nat /\
                N.of_nat i ∈ tetOf t /\ n ∈ tetOf t) /\
  (forall j,
      N.of_nat j ∈ PressureSolver.getNeighbors m i <->
      N.of_nat i ∈ PressureSolver.getNeighbors m j).
Proof.
  intros tetOf.
  assert (Hchar : forall i n,
             n ∈ PressureSolver.getNeighbors m i <->
             n ≠ N.of_nat i /\
             exists t, (t < TetrahedralMesh.tetCount m)%nat /\
                       N.of_nat i ∈ tetOf t /\ n ∈ tetOf t).
  { intros i' n. unfold PressureSolver.getNeighbors.
    destruct (addTetNeighbors_spec (TetrahedralMesh.tetrahedra m) i'
                (seq 0 (TetrahedralMesh.tetCount m)) []) as [Hin _].
    rewrite Hin. split.
    - intros [H|(Hne & t & Ht & Hi & Hn)]; [by apply elem_of_nil in H|].
      split; [done|]. exists t. apply elem_of_seq in Ht. split; [lia|done].
    - intros (Hne & t & Ht & Hi & Hn). right. split; [done|].
      exists t. split; [|done]. apply elem_of_seq. lia. }
  split; [|split; [|split]].
  - unfold PressureSolver.getNeighbors.
    apply (addTetNeighbors_spec (TetrahedralMesh.tetrahedra m) i
             (seq 0 (TetrahedralMesh.tetCount m)) []). apply NoDup_nil_2.
  - intros H. apply Hchar in H as [Hne _]. done.
  - apply Hchar.
  - intros j. rewrite !Hchar. split.
    + intros (Hne & t & Ht & Hi & Hj). split; [congruence|]. by exists t.
    + intros (Hne & t & Ht & Hj & Hi). split; [congruence|]. by exists t.
Qed.

(** ** The constructed mesh *)

Section ConstructedMesh.
Import Js TetrahedralMesh.

Lemma getNodeIndex_bound nx ny nz i j k :
  (i <= nx)%nat -> (j <= ny)%nat -> (k <= nz)%nat ->
  (N.to_nat (getNodeIndex nx ny i j k) < (nx + 1) * (ny + 1) * (nz + 1))%nat.
Proof.
  intros Hi Hj Hk. unfold getNodeIndex.
  rewrite !N2Nat.inj_add, !N2Nat.inj_mul, !N2Nat.inj_add, !Nat2N.id.
  change (N.to_nat 1) with 1%nat.
  assert (H1 : (j * (nx + 1) + i < (ny + 1) * (nx + 1))%nat) by nia.
  assert (H2 : (k * ((nx + 1) * (ny + 1)) + (j * (nx + 1) + i)
                < (nz + 1) * ((nx + 1) * (ny + 1)))%nat) by nia.
  nia.
Qed.

Lemma toUint32_le n : (N.to_nat (toUint32 n) <= N.to_nat n)%nat.
Proof.
  unfold toUint32. pose proof (N.Div0.mod_le n (2 ^ 32)%N). lia.
Qed.

Lemma cubeTetrahedra_valid nx ny nz i j k :
  (i < nx)%nat -> (j < ny)%nat -> (k < nz)%nat ->
  Forall (fun n => (N.to_nat (toUint32 n) < (nx + 1) * (ny + 1) * (nz + 1))%nat)
         (cubeTetrahedra nx ny i j k).
Proof.
  intros Hi Hj Hk. unfold cubeTetrahedra.
  repeat apply Forall_cons_2; try apply Forall_nil_2;
    (eapply Nat.le_lt_trans; [apply toUint32_le|]);
    apply getNodeIndex_bound; lia.
Qed.

Lemma gridTetrahedra_valid nx ny nz :
  Forall (fun n => (N.to_nat (toUint32 n) < (nx + 1) * (ny + 1) * (nz + 1))%nat)
         (gridTetrahedra nx ny nz).
Proof.
  unfold gridTetrahedra.
  apply Forall_bind, Forall_forall. intros k Hk. apply elem_of_seq in Hk.
  apply Forall_bind, Forall_forall. intros j Hj. apply elem_of_seq in Hj.
  apply Forall_bind, Forall_forall. intros i Hi. apply elem_of_seq in Hi.
  apply cubeTetrahedra_valid; lia.
Qed.

End ConstructedMesh.

(** For every resolution, whatever the domain, [createRegularMesh]
    establishes the mesh invariant: the counts describe the three arrays
    and every entry of the tetrahedron array is the index of a node. *)
Theorem createRegularMesh_wf (dmin dmax : Qc * Qc * Qc) (nx ny nz : nat) :
  exists m,
    TetrahedralMesh.createRegularMesh dmin dmax nx ny nz = Js.ret m /\
    TetrahedralMesh.wf m.
Proof.
  destruct (createRegularMesh_returns dmin dmax nx ny nz)
    as (m & Hm & Hn & Hln & Ht & Hlt & Hv).
  exists m. split; [exact Hm|]. unfold TetrahedralMesh.wf.
  split; [exact Hln|]. split; [by rewrite Hv, length_replicate|].
  split; [exact Hlt|].
  rewrite Hn. clear - Hm.
  unfold TetrahedralMesh.createRegularMesh in Hm.
  destruct dmin as [[minx miny] minz], dmax as [[maxx maxy] maxz].
  injection Hm as <-. cbn [TetrahedralMesh.tetrahedra].
  apply Forall_fmap. apply gridTetrahedra_valid.
Qed.

(** ** What P2G leaves in the mesh *)

Section ResetAndZero.
Import Js TetrahedralMesh TetFlipSimulator.

Lemma resetNodes_zero ns : resetNodes ns = replicate (length ns) 0.
Proof.
  apply list_eq. intros j.
  destruct (decide (j < length ns)%nat) as [Hj|Hj].
  - rewrite lookup_replicate_2 by done.
    set (s := (j / 3)%nat).
    assert (Hs : (s * 3 <= j < s * 3 + 3)%nat).
    { unfold s. pose proof (Nat.div_mod_eq j 3).
      pose proof (Nat.mod_upper_bound j 3). lia. }
    pose proof (slot_loop slot
                  (fun a i => wr (wr (wr a (i + 0) 0) (i + 1) 0) (i + 2) 0)) as Hloop.
    assert (Hslot : slot (resetNodes ns) s
                    = ((fun _ => 0) <$> ns !! (s * 3)%nat,
                       (fun _ => 0) <$> ns !! (s * 3 + 1)%nat,
                       (fun _ => 0) <$> ns !! (s * 3 + 2)%nat)).
    { unfold resetNodes. rewrite Hloop.
      - unfold slot. rewrite !lookup_wr.
        repeat first [rewrite decide_True by lia | rewrite decide_False by lia].
        by destruct (ns !! (s * 3)%nat), (ns !! (s * 3 + 1)%nat),
                    (ns !! (s * 3 + 2)%nat).
      - intros st a b Hab. unfold slot. rewrite !lookup_wr.
        repeat (rewrite decide_False by lia). done.
      - intros st st' a Hobs. unfold slot in *. rewrite !lookup_wr.
        injection Hobs as -> -> ->. done.
      - lia. }
    destruct (lookup_lt_is_Some_2 ns j Hj) as [x Hx].
    unfold slot in Hslot. injection Hslot as H0 H1 H2.
    assert (Hk : j = (s * 3)%nat \/ j = (s * 3 + 1)%nat \/ j = (s * 3 + 2)%nat) by lia.
    destruct Hk as [Hk|[Hk|Hk]]; rewrite <- Hk in *.
    + rewrite H0, Hx. done.
    + rewrite H1, Hx. done.
    + rewrite H2, Hx. done.
  - rewrite lookup_ge_None_2 by (rewrite length_resetNodes; lia).
    symmetry. apply lookup_replicate_None. lia.
Qed.

Lemma wr_zero_replicate n i : wr (replicate n 0) i 0 = replicate n 0.
Proof. unfold wr. apply insert_replicate. Qed.

Lemma divAt_zero_replicate n i w : divAt (replicate n 0) i w = replicate n 0.
Proof.
  unfold divAt. rewrite rd_replicate. unfold Qcdiv. rewrite Qcmult_0_l.
  apply wr_zero_replicate.
Qed.

Lemma normalize_zero weights n (l : list nat) :
  foldl (normalizeNode weights) (replicate n 0) l = replicate n 0.
Proof.
  induction l as [|i l IH]; [done|]. cbn [foldl].
  unfold normalizeNode at 2. destruct (ltb 0 (rd weights i)); [|exact IH].
  by rewrite !divAt_zero_replicate.
Qed.

Variables (tets : list N) (tetCount : nat) (positions velocities : list Qc).
Hypothesis velocities_zero : forall j, rd velocities j = 0.

Lemma p2gParticle_zero_velocity acc p :
  (p2gParticle tets tetCount positions velocities acc p).1 = acc.1.
Proof.
  unfold p2gParticle. rewrite !velocities_zero.
  destruct (decide _); [|done]. destruct acc as [ns ws].
  cbn [seq foldl]. by rewrite !scatter_zero.
Qed.

Lemma p2g_prefix_zero_velocity acc (l : list nat) :
  (foldl (p2gParticle tets tetCount positions velocities) acc l).1 = acc.1.
Proof.
  revert acc. induction l as [|p l IH]; intros acc; [done|].
  cbn [foldl]. rewrite IH. apply p2gParticle_zero_velocity.
Qed.

End ResetAndZero.

(** When every particle velocity is zero, as [setupDamBreak] leaves them,
    [particlesToMesh] returns with every entry of the node position array
    and of the node velocity array equal to [0], whatever the mesh and
    the particle positions were. *)
Theorem particlesToMesh_zero_velocities (sim : TetFlipSimulator.t) :
  (forall j, Js.rd (ParticleSystem.velocities (TetFlipSimulator.particles sim)) j = 0) ->
  exists sim',
    TetFlipSimulator.particlesToMesh sim = Js.ret sim' /\
    TetrahedralMesh.nodes (TetFlipSimulator.mesh sim')
      = replicate (length (TetrahedralMesh.nodes (TetFlipSimulator.mesh sim))) 0 /\
    TetrahedralMesh.nodeVelocities (TetFlipSimulator.mesh sim')
      = replicate (length (TetrahedralMesh.nodes (TetFlipSimulator.mesh sim))) 0.
Proof.
  intros Hzero. unfold TetFlipSimulator.particlesToMesh.
  pose proof (p2g_prefix_zero_velocity
                (TetrahedralMesh.tetrahedra (TetFlipSimulator.mesh sim))
                (TetrahedralMesh.tetCount (TetFlipSimulator.mesh sim))
                (ParticleSystem.positions (TetFlipSimulator.particles sim))
                (ParticleSystem.velocities (TetFlipSimulator.particles sim))
                Hzero) as Hfst.
  unfold TetFlipSimulator.p2gLoop, TetrahedralMesh.getNodes.
  match goal with
  | |- context [foldl ?f ?acc ?l] =>
      specialize (Hfst acc l); destruct (foldl f acc l) as [ns ws]
  end.
  cbn [fst] in Hfst. subst ns. rewrite resetNodes_zero.
  rewrite normalize_zero. eexists. split; [reflexivity|]. done.
Qed.

Lemma particlesToMesh_zero_velocities_witness :
  exists sim',
    TetFlipSimulator.particlesToMesh Examples.defaultSim = Js.ret sim' /\
    TetrahedralMesh.nodes (TetFlipSimulator.mesh sim')
      = replicate
          (length (TetrahedralMesh.nodes (TetFlipSimulator.mesh Examples.defaultSim))) 0.
Proof.
  destruct (particlesToMesh_zero_velocities Examples.defaultSim)
    as (sim' & Hret & Hnodes & _).
  - intros j. apply rd_replicate.
  - exists sim'. split; [exact Hret|exact Hnodes].
Defined.

(** ** The setters of the particle set *)

Section Setters.
Import Js ParticleSystem.

Lemma truncate_cases ps msg a :
  truncate ps msg a
  = ((if decide (maxParticles ps * 3 < length a)%nat then [msg]%list else []),
     Returned (take (maxParticles ps * 3) a)).
Proof.
  destruct (decide (maxParticles ps * 3 < length a)%nat) as [H|H].
  - by apply truncate_long.
  - rewrite truncate_fits by lia. by rewrite take_ge by lia.
Qed.

Lemma typedSet_take buffer a n :
  length buffer = n ->
  typedSet buffer (take n a)
  = ret (take n a ++ drop (length (take n a)) buffer).
Proof. intros Hb. apply typedSet_fits. rewrite length_take. lia. Qed.

Lemma length_overwrite (buffer a : list Qc) n :
  length buffer = n ->
  length (take n a ++ drop (length (take n a)) buffer) = n.
Proof.
  intros Hb. rewrite length_app, length_drop, length_take. lia.
Qed.

End Setters.

(** [setPositions] on an initialized particle set never throws, whatever
    the length of its argument.  It warns exactly when the argument has
    more than [3 * maxParticles] entries; it overwrites the front of the
    position buffer with the (truncated) argument and keeps the rest of
    the buffer as it was; [count] becomes the number of stored entries
    divided by three, which is not a whole number when that number is
    not a multiple of three; the velocities are untouched and the buffers
    keep their sizes. *)
Theorem setPositions_any (ps : ParticleSystem.t) (newPositions : list Qc) :
  ParticleSystem.wf ps ->
  let n := (ParticleSystem.maxParticles ps * 3)%nat in
  let kept := take n newPositions in
  exists ps',
    ParticleSystem.setPositions ps newPositions
      = ((if decide (n < length newPositions)%nat
          then [ParticleSystem.warnPositions]%list else []),
         Js.Returned ps') /\
    ParticleSystem.positions ps'
      = kept ++ drop (length kept) (ParticleSystem.positions ps) /\
    ParticleSystem.count ps'
      = Js.of_nat (Nat.min n (length newPositions)) / Js.of_nat 3 /\
    ParticleSystem.velocities ps' = ParticleSystem.velocities ps /\
    ParticleSystem.maxParticles ps' = ParticleSystem.maxParticles ps /\
    ParticleSystem.wf ps'.
Proof.
  intros [Hp Hv]. cbv zeta. unfold ParticleSystem.setPositions.
  rewrite truncate_cases.
  cbn [Js.bind]. rewrite (typedSet_take _ _ _ Hp).
  cbn [Js.bind Js.ret]. rewrite app_nil_r.
  eexists. split; [reflexivity|].
  cbn [ParticleSystem.positions ParticleSystem.count ParticleSystem.velocities
       ParticleSystem.maxParticles].
  split; [done|]. split; [by rewrite length_take|].
  split; [done|]. split; [done|].
  split; cbn [ParticleSystem.positions ParticleSystem.velocities
              ParticleSystem.maxParticles]; [|exact Hv].
  by apply length_overwrite.
Qed.

(** Capacity 2, four entries assigned: no warning, [count = 4/3], and
    the last two entries of the buffer are the old ones. *)
Lemma setPositions_any_witness :
  exists ps',
    ParticleSystem.setPositions Examples.oneOfTwo [ 1; 1; 1; 1 ]
      = ([], Js.Returned ps') /\
    ParticleSystem.positions ps' = [ 1; 1; 1; 1; 0; 0 ] /\
    ParticleSystem.count ps' = Q2Qc (4 # 3).
Proof.
  destruct (setPositions_any Examples.oneOfTwo [ 1; 1; 1; 1 ])
    as (ps' & Hset & Hpos & Hcount & _).
  - split; reflexivity.
  - exists ps'. split; [exact Hset|]. split; [exact Hpos|].
    rewrite Hcount. compute_done.
Defined.

(** [setVelocities] on an initialized particle set never throws and never
    changes [count] or the positions.  It warns exactly when the argument
    has more than [3 * maxParticles] entries, overwrites the front of the
    velocity buffer with the (truncated) argument and keeps the rest. *)
Theorem setVelocities_any (ps : ParticleSystem.t) (newVelocities : list Qc) :
  ParticleSystem.wf ps ->
  let n := (ParticleSystem.maxParticles ps * 3)%nat in
  let kept := take n newVelocities in
  exists ps',
    ParticleSystem.setVelocities ps newVelocities
      = ((if decide (n < length newVelocities)%nat
          then [ParticleSystem.warnVelocities]%list else []),
         Js.Returned ps') /\
    ParticleSystem.velocities ps'
      = kept ++ drop (length kept) (ParticleSystem.velocities ps) /\
    ParticleSystem.count ps' = ParticleSystem.count ps /\
    ParticleSystem.positions ps' = ParticleSystem.positions ps /\
    ParticleSystem.maxParticles ps' = ParticleSystem.maxParticles ps /\
    ParticleSystem.wf ps'.
Proof.
  intros [Hp Hv]. cbv zeta. unfold ParticleSystem.setVelocities.
  rewrite truncate_cases.
  cbn [Js.bind]. rewrite (typedSet_take _ _ _ Hv).
  cbn [Js.bind Js.ret]. rewrite app_nil_r.
  eexists. split; [reflexivity|].
  cbn [ParticleSystem.positions ParticleSystem.count ParticleSystem.velocities
       ParticleSystem.maxParticles].
  split; [done|]. split; [done|]. split; [done|]. split; [done|].
  split; cbn [ParticleSystem.positions ParticleSystem.velocities
              ParticleSystem.maxParticles]; [exact Hp|].
  by apply length_overwrite.
Qed.

Lemma setVelocities_any_witness :
  exists ps',
    ParticleSystem.setVelocities Examples.oneOfTwo (replicate 7 1)
      = ([ParticleSystem.warnVelocities]%list, Js.Returned ps') /\
    ParticleSystem.velocities ps' = replicate 6 1 /\
    ParticleSystem.count ps' = 1.
Proof.
  destruct (setVelocities_any Examples.oneOfTwo (replicate 7 1))
    as (ps' & Hset & Hvel & Hcount & _).
  - split; reflexivity.
  - exists ps'. split; [exact Hset|]. split; [exact Hvel|exact Hcount].
Defined.

(** ** Advection *)

Section Advection.
Import Js ParticleSystem TetFlipSimulator.

Lemma setPositions_own ps :
  wf ps ->
  setPositions ps (positions ps)
  = ret {| maxParticles := maxParticles ps;
           count := of_nat (maxParticles ps);
           positions := positions ps;
           velocities := velocities ps |}.
Proof.
  intros [Hp Hv]. unfold setPositions.
  rewrite truncate_fits by lia. rewrite bind_ret, typedSet_self, bind_ret.
  by rewrite Hp, of_nat_triple.
Qed.

Lemma length_advectLoop dt positions velocities :
  length (advectLoop dt positions velocities) = length positions.
Proof. apply foldl_length. apply length_advectParticle. Qed.

Lemma slot_of_index (n j : nat) :
  (j < n * 3)%nat ->
  exists s, (s < n)%nat /\
            (j = s * 3 + 0 \/ j = s * 3 + 1 \/ j = s * 3 + 2)%nat.
Proof.
  intros Hj. exists (j / 3)%nat.
  pose proof (Nat.div_mod_eq j 3). pose proof (Nat.mod_upper_bound j 3).
  split; [apply Nat.Div0.div_lt_upper_bound; lia|lia].
Qed.

Lemma advectLoop_rd dt positions velocities j :
  (j < length positions)%nat -> (exists n, length positions = n * 3)%nat ->
  rd (advectLoop dt positions velocities) j
  = rd positions j + rd velocities j * dt.
Proof.
  intros Hj [n Hn]. rewrite Hn in Hj.
  destruct (slot_of_index n j Hj) as (s & Hs & Hk).
  assert (Hslot : (s * 3 < length positions)%nat) by lia.
  destruct (rd_of_slot _ _ _ (advectLoop_slot dt velocities positions s Hslot))
    as (H0 & H1 & H2).
  destruct (advectParticle_rd dt velocities positions (s * 3)) as (A0 & A1 & A2);
    [lia|].
  destruct Hk as [->|[->| ->]]; congruence.
Qed.

End Advection.

(** [advectParticles] on an initialized particle set returns normally
    without console output, moves every entry of the position buffer by
    its velocity times the time step, whether its slot is live or not,
    leaves the velocities and the mesh alone, and sets [count] to the
    capacity [maxParticles], whatever [count] was before. *)
Theorem advectParticles_moves_all_slots (sim : TetFlipSimulator.t) :
  let ps := TetFlipSimulator.particles sim in
  ParticleSystem.wf ps ->
  exists sim',
    TetFlipSimulator.advectParticles sim = Js.ret sim' /\
    TetFlipSimulator.mesh sim' = TetFlipSimulator.mesh sim /\
    let ps' := TetFlipSimulator.particles sim' in
    ParticleSystem.wf ps' /\
    ParticleSystem.getCount ps' = Js.of_nat (ParticleSystem.maxParticles ps) /\
    ParticleSystem.velocities ps' = ParticleSystem.velocities ps /\
    forall j, (j < ParticleSystem.maxParticles ps * 3)%nat ->
              Js.rd (ParticleSystem.positions ps') j
              = Js.rd (ParticleSystem.positions ps) j
                + Js.rd (ParticleSystem.velocities ps) j * TetFlipSimulator.timeStep sim.
Proof.
  intros ps [Hp Hv]. unfold TetFlipSimulator.advectParticles. fold ps.
  set (pos' := TetFlipSimulator.advectLoop (TetFlipSimulator.timeStep sim)
                 (ParticleSystem.positions ps) (ParticleSystem.velocities ps)).
  assert (Hlen : length pos' = (ParticleSystem.maxParticles ps * 3)%nat).
  { unfold pos'. by rewrite length_advectLoop. }
  pose proof (setPositions_own
                (ParticleSystem.withBuffers ps pos' (ParticleSystem.velocities ps)))
    as Hset.
  cbn [ParticleSystem.positions ParticleSystem.velocities
       ParticleSystem.maxParticles ParticleSystem.withBuffers] in Hset.
  rewrite Hset by (split; assumption). rewrite bind_ret.
  eexists. split; [reflexivity|].
  cbn [TetFlipSimulator.mesh TetFlipSimulator.withParticles
       TetFlipSimulator.particles ParticleSystem.positions
       ParticleSystem.velocities ParticleSystem.getCount ParticleSystem.count].
  split; [done|]. split; [by split|]. split; [done|]. split; [done|].
  intros j Hj. unfold pos'. apply advectLoop_rd; [lia|].
  by exists (ParticleSystem.maxParticles ps).
Qed.

(** Capacity 2 with [count = 1]: after advection [count] is 2. *)
Lemma advectParticles_moves_all_slots_witness :
  exists sim',
    TetFlipSimulator.advectParticles Examples.smallSim = Js.ret sim' /\
    ParticleSystem.getCount (TetFlipSimulator.particles Examples.smallSim) = 1 /\
    ParticleSystem.getCount (TetFlipSimulator.particles sim') = Js.of_nat 2.
Proof.
  destruct (advectParticles_moves_all_slots Examples.smallSim)
    as (sim' & Hret & _ & _ & Hcount & _).
  - split; reflexivity.
  - exists sim'. split; [exact Hret|]. split; [reflexivity|exact Hcount].
Defined.

(** ** Collision with the domain boundary *)

Section Collision.
Import Js ParticleSystem TetFlipSimulator.

Lemma rd_of_lookup (a b : list Qc) i j : a !! i = b !! j -> rd a i = rd b j.
Proof. unfold rd. by intros ->. Qed.

Lemma length_collideAxis lo hi acc idx :
  length (collideAxis lo hi acc idx).1 = length acc.1 /\
  length (collideAxis lo hi acc idx).2 = length acc.2.
Proof.
  destruct acc as [pos vel]. unfold collideAxis.
  destruct (ltb (rd pos idx) lo); [|destruct (ltb hi (rd pos idx))];
    cbn [fst snd]; by rewrite ?length_wr.
Qed.

Lemma length_collideParticle dmin dmax acc p :
  length (collideParticle dmin dmax acc p).1 = length acc.1 /\
  length (collideParticle dmin dmax acc p).2 = length acc.2.
Proof.
  unfold collideParticle.
  destruct dmin as [[minx miny] minz], dmax as [[maxx maxy] maxz].
  destruct (length_collideAxis minz maxz
              (collideAxis miny maxy (collideAxis minx maxx acc (p + 0)) (p + 1))
              (p + 2)) as [-> ->].
  destruct (length_collideAxis miny maxy (collideAxis minx maxx acc (p + 0)) (p + 1))
    as [-> ->].
  apply length_collideAxis.
Qed.

Lemma length_collide_prefix dmin dmax acc (l : list nat) :
  length (foldl (collideParticle dmin dmax) acc l).1 = length acc.1 /\
  length (foldl (collideParticle dmin dmax) acc l).2 = length acc.2.
Proof.
  revert acc. induction l as [|p l IH]; intros acc; [done|].
  cbn [foldl]. destruct (IH (collideParticle dmin dmax acc p)) as [-> ->].
  apply length_collideParticle.
Qed.

Lemma length_collideLoop dmin dmax positions velocities :
  length (collideLoop dmin dmax positions velocities).1 = length positions /\
  length (collideLoop dmin dmax positions velocities).2 = length velocities.
Proof. unfold collideLoop. apply length_collide_prefix. Qed.

Lemma collideAxis_own lo hi pos vel idx :
  (idx < length pos)%nat -> (idx < length vel)%nat ->
  (rd (collideAxis lo hi (pos, vel) idx).1 idx,
   rd (collideAxis lo hi (pos, vel) idx).2 idx)
  = collided lo hi (rd pos idx) (rd vel idx).
Proof.
  intros Hp Hv. unfold collideAxis, collided.
  destruct (ltb (rd pos idx) lo); [|destruct (ltb hi (rd pos idx))];
    cbn [fst snd]; by rewrite ?rd_wr_eq.
Qed.

Lemma collided_within lo hi x v :
  lo ≤ hi -> lo ≤ (collided lo hi x v).1 /\ (collided lo hi x v).1 ≤ hi.
Proof.
  intros Hlh. unfold collided, ltb.
  case_bool_decide as Hlo; [by split|].
  case_bool_decide as Hhi; [by split|].
  cbn [fst]. split; by apply Qcnot_lt_le.
Qed.

(** Each coordinate of slot [p] gets the test of its own axis, applied to
    its own values. *)
Lemma collideParticle_own minx miny minz maxx maxy maxz acc p :
  let after := collideParticle (minx, miny, minz) (maxx, maxy, maxz) acc p in
  let x := collideAxis minx maxx acc (p + 0) in
  let y := collideAxis miny maxy acc (p + 1) in
  let z := collideAxis minz maxz acc (p + 2) in
  (after.1 !! (p + 0)%nat = x.1 !! (p + 0)%nat /\
   after.2 !! (p + 0)%nat = x.2 !! (p + 0)%nat) /\
  (after.1 !! (p + 1)%nat = y.1 !! (p + 1)%nat /\
   after.2 !! (p + 1)%nat = y.2 !! (p + 1)%nat) /\
  (after.1 !! (p + 2)%nat = z.1 !! (p + 2)%nat /\
   after.2 !! (p + 2)%nat = z.2 !! (p + 2)%nat).
Proof.
  intros after x y z. unfold after, collideParticle. fold x.
  set (y' := collideAxis miny maxy x (p + 1)).
  pose proof (collideAxis_other minx maxx acc (p + 0)) as Hx. fold x in Hx.
  pose proof (collideAxis_other miny maxy x (p + 1)) as Hy. fold y' in Hy.
  pose proof (collideAxis_other minz maxz y' (p + 2)) as Hz.
  split; [|split].
  - destruct (Hz (p + 0)%nat) as [-> ->]; [lia|].
    destruct (Hy (p + 0)%nat) as [-> ->]; [lia|]. done.
  - destruct (Hz (p + 1)%nat) as [-> ->]; [lia|].
    apply collideAxis_agree; apply Hx; lia.
  - apply collideAxis_agree.
    + destruct (Hy (p + 2)%nat) as [-> _]; [lia|]. apply Hx. lia.
    + destruct (Hy (p + 2)%nat) as [_ ->]; [lia|]. apply Hx. lia.
Qed.

Lemma collideLoop_rd minx miny minz maxx maxy maxz positions velocities s :
  (s * 3 + 2 < length positions)%nat -> (s * 3 + 2 < length velocities)%nat ->
  let after :=
    collideLoop (minx, miny, minz) (maxx, maxy, maxz) positions velocities in
  let p := (s * 3)%nat in
  (rd after.1 (p + 0), rd after.2 (p + 0))
    = collided minx maxx (rd positions (p + 0)) (rd velocities (p + 0)) /\
  (rd after.1 (p + 1), rd after.2 (p + 1))
    = collided miny maxy (rd positions (p + 1)) (rd velocities (p + 1)) /\
  (rd after.1 (p + 2), rd after.2 (p + 2))
    = collided minz maxz (rd positions (p + 2)) (rd velocities (p + 2)).
Proof.
  intros Hp Hv after p.
  destruct (collideLoop_slot velocities (minx, miny, minz) (maxx, maxy, maxz)
              positions s) as [Hs1 Hs2]; [lia|].
  fold after in Hs1, Hs2.
  destruct (rd_of_slot _ _ _ Hs1) as (P0 & P1 & P2).
  destruct (rd_of_slot _ _ _ Hs2) as (V0 & V1 & V2).
  fold p in P0, P1, P2, V0, V1, V2.
  rewrite P0, P1, P2, V0, V1, V2.
  destruct (collideParticle_own minx miny minz maxx maxy maxz
              (positions, velocities) p)
    as ((X1 & X2) & (Y1 & Y2) & (Z1 & Z2)).
  rewrite (rd_of_lookup _ _ _ _ X1), (rd_of_lookup _ _ _ _ X2),
          (rd_of_lookup _ _ _ _ Y1), (rd_of_lookup _ _ _ _ Y2),
          (rd_of_lookup _ _ _ _ Z1), (rd_of_lookup _ _ _ _ Z2).
  unfold p. split; [|split]; apply collideAxis_own; lia.
Qed.

End Collision.

(** [handleCollisions] on an initialized particle set returns normally
    without console output, leaves the mesh alone and sets [count] to the
    capacity.  For every slot of the buffers, live or not, each
    coordinate is tested against the bounds of its own axis only: below
    the lower bound it becomes the lower bound and its velocity
    [|v| * 0.3]; above the upper bound it becomes the upper bound and its
    velocity [-|v| * 0.3]; otherwise both stay.  So on an axis whose
    bounds are ordered, every coordinate lies within the bounds
    afterwards. *)
Theorem handleCollisions_clamps (sim : TetFlipSimulator.t) (s : nat) :
  let ps := TetFlipSimulator.particles sim in
  let pos := ParticleSystem.positions ps in
  let vel := ParticleSystem.velocities ps in
  let lo := TetFlipSimulator.domainMin sim in
  let hi := TetFlipSimulator.domainMax sim in
  let p := (s * 3)%nat in
  ParticleSystem.wf ps -> (s < ParticleSystem.maxParticles ps)%nat ->
  exists sim',
    TetFlipSimulator.handleCollisions sim = Js.ret sim' /\
    TetFlipSimulator.mesh sim' = TetFlipSimulator.mesh sim /\
    let ps' := TetFlipSimulator.particles sim' in
    let pos' := ParticleSystem.positions ps' in
    let vel' := ParticleSystem.velocities ps' in
    ParticleSystem.wf ps' /\
    ParticleSystem.getCount ps' = Js.of_nat (ParticleSystem.maxParticles ps) /\
    (Js.rd pos' (p + 0), Js.rd vel' (p + 0))
      = TetFlipSimulator.collided lo.1.1 hi.1.1 (Js.rd pos (p + 0)) (Js.rd vel (p + 0)) /\
    (Js.rd pos' (p + 1), Js.rd vel' (p + 1))
      = TetFlipSimulator.collided lo.1.2 hi.1.2 (Js.rd pos (p + 1)) (Js.rd vel (p + 1)) /\
    (Js.rd pos' (p + 2), Js.rd vel' (p + 2))
      = TetFlipSimulator.collided lo.2 hi.2 (Js.rd pos (p + 2)) (Js.rd vel (p + 2)) /\
    (lo.1.1 ≤ hi.1.1 -> lo.1.1 ≤ Js.rd pos' (p + 0) /\ Js.rd pos' (p + 0) ≤ hi.1.1) /\
    (lo.1.2 ≤ hi.1.2 -> lo.1.2 ≤ Js.rd pos' (p + 1) /\ Js.rd pos' (p + 1) ≤ hi.1.2) /\
    (lo.2 ≤ hi.2 -> lo.2 ≤ Js.rd pos' (p + 2) /\ Js.rd pos' (p + 2) ≤ hi.2).
Proof.
  intros ps pos vel lo hi p [Hp Hv] Hs.
  unfold TetFlipSimulator.handleCollisions. fold ps lo hi pos vel.
  assert (Hp' : length pos = (ParticleSystem.maxParticles ps * 3)%nat) by exact Hp.
  assert (Hv' : length vel = (ParticleSystem.maxParticles ps * 3)%nat) by exact Hv.
  clear Hp Hv.
  destruct (length_collideLoop lo hi pos vel) as [Hl1 Hl2].
  destruct lo as [[minx miny] minz] eqn:Elo, hi as [[maxx maxy] maxz] eqn:Ehi.
  destruct (collideLoop_rd minx miny minz maxx maxy maxz pos vel s)
    as (Hx & Hy & Hz); [lia..|].
  cbv zeta in Hx, Hy, Hz. fold p in Hx, Hy, Hz.
  destruct (TetFlipSimulator.collideLoop (minx, miny, minz) (maxx, maxy, maxz) pos vel)
    as [pos' vel'].
  cbn [fst snd] in *.
  pose proof (setPositions_own (ParticleSystem.withBuffers ps pos' vel')) as Hset.
  cbn [ParticleSystem.positions ParticleSystem.velocities
       ParticleSystem.maxParticles ParticleSystem.withBuffers] in Hset.
  rewrite Hset by (split; cbn [ParticleSystem.positions ParticleSystem.velocities
                               ParticleSystem.maxParticles
                               ParticleSystem.withBuffers]; lia).
  rewrite bind_ret.
  match goal with
  | |- context [ParticleSystem.setVelocities ?q _] =>
      pose proof (setVelocities_own q) as Hsetv
  end.
  cbn [ParticleSystem.velocities] in Hsetv |- *.
  rewrite Hsetv by (split; cbn [ParticleSystem.positions ParticleSystem.velocities
                                ParticleSystem.maxParticles]; lia).
  rewrite bind_ret.
  eexists. split; [reflexivity|].
  cbn [TetFlipSimulator.mesh TetFlipSimulator.withParticles
       TetFlipSimulator.particles ParticleSystem.positions
       ParticleSystem.velocities ParticleSystem.getCount ParticleSystem.count
       ParticleSystem.maxParticles].
  split; [done|].
  split; [split; cbn [ParticleSystem.positions ParticleSystem.velocities
                      ParticleSystem.maxParticles]; lia|].
  split; [done|]. split; [exact Hx|]. split; [exact Hy|]. split; [exact Hz|].
  split; [|split]; intros Hord.
  - replace (Js.rd pos' (p + 0)) with
      (TetFlipSimulator.collided minx maxx (Js.rd pos (p + 0)) (Js.rd vel (p + 0))).1
      by (by rewrite <- Hx). by apply collided_within.
  - replace (Js.rd pos' (p + 1)) with
      (TetFlipSimulator.collided miny maxy (Js.rd pos (p + 1)) (Js.rd vel (p + 1))).1
      by (by rewrite <- Hy). by apply collided_within.
  - replace (Js.rd pos' (p + 2)) with
      (TetFlipSimulator.collided minz maxz (Js.rd pos (p + 2)) (Js.rd vel (p + 2))).1
      by (by rewrite <- Hz). by apply collided_within.
Qed.

(** One particle at [(2, 0, -3)] with velocity [(5, 1, -4)] in the domain
    [[-1,1]^3]: it ends at [x = 1] with [x]-velocity [-5 * 0.3]. *)
Lemma handleCollisions_clamps_witness :
  exists sim',
    TetFlipSimulator.handleCollisions Examples.escapedSim = Js.ret sim' /\
    (Js.rd (ParticleSystem.positions (TetFlipSimulator.particles sim')) 0,
     Js.rd (ParticleSystem.velocities (TetFlipSimulator.particles sim')) 0)
    = (1, Q2Qc (-3 # 2)).
Proof.
  destruct (handleCollisions_clamps Examples.escapedSim 0)
    as (sim' & Hret & _ & _ & _ & Hx & _).
  - split; reflexivity.
  - vm_compute. lia.
  - exists sim'. split; [exact Hret|].
    etransitivity; [exact Hx|]. compute_done.
Defined.

(** ** Body forces *)

Section BodyForces.
Import Js TetFlipSimulator.

Variable g : Qc.

Lemma gravity_other v s s' :
  s ≠ s' -> slot (addAt v (s' * 3 + 1) g) s = slot v s.
Proof.
  intros Hne. unfold slot. rewrite !lookup_addAt.
  repeat (rewrite decide_False by lia). done.
Qed.

Lemma gravity_local v v' s :
  slot v s = slot v' s ->
  slot (addAt v (s * 3 + 1) g) s = slot (addAt v' (s * 3 + 1) g) s.
Proof.
  intros Hs. unfold slot in *. rewrite !lookup_addAt.
  injection Hs as -> -> ->. done.
Qed.

Lemma gravity_loop_rd v n s :
  length v = (n * 3)%nat -> (s < n)%nat ->
  let v' := foldl (fun v i => addAt v (i + 1) g) v (offsets (length v)) in
  rd v' (s * 3 + 0) = rd v (s * 3 + 0) /\
  rd v' (s * 3 + 1) = rd v (s * 3 + 1) + g /\
  rd v' (s * 3 + 2) = rd v (s * 3 + 2).
Proof.
  intros Hn Hs v'.
  assert (Hslot : slot v' s = slot (addAt v (s * 3 + 1) g) s).
  { unfold v'.
    apply (slot_loop slot (fun v i => addAt v (i + 1) g));
      [|exact gravity_local|lia].
    intros st a b Hab. by apply gravity_other. }
  destruct (rd_of_slot _ _ _ Hslot) as (-> & -> & ->).
  unfold addAt. split; [|split].
  - by rewrite rd_wr_ne by lia.
  - by rewrite rd_wr_eq by lia.
  - by rewrite rd_wr_ne by lia.
Qed.

End BodyForces.

(** [applyBodyForces] adds [gravity * timeStep] to the second component
    of every node velocity and leaves the first and third components, the
    node positions, the tetrahedra and the particles as they are. *)
Theorem applyBodyForces_adds_gravity (sim : TetFlipSimulator.t) (n : nat) :
  let m := TetFlipSimulator.mesh sim in
  let sim' := TetFlipSimulator.applyBodyForces sim in
  let m' := TetFlipSimulator.mesh sim' in
  let v := TetrahedralMesh.nodeVelocities m in
  let v' := TetrahedralMesh.nodeVelocities m' in
  TetrahedralMesh.wf m -> (n < TetrahedralMesh.nodeCount m)%nat ->
  Js.rd v' (n * 3 + 0) = Js.rd v (n * 3 + 0) /\
  Js.rd v' (n * 3 + 1)
    = Js.rd v (n * 3 + 1) + TetFlipSimulator.gravity sim * TetFlipSimulator.timeStep sim /\
  Js.rd v' (n * 3 + 2) = Js.rd v (n * 3 + 2) /\
  TetrahedralMesh.nodes m' = TetrahedralMesh.nodes m /\
  TetrahedralMesh.tetrahedra m' = TetrahedralMesh.tetrahedra m /\
  TetFlipSimulator.particles sim' = TetFlipSimulator.particles sim /\
  TetrahedralMesh.wf m'.
Proof.
  intros m sim' m' v v' (Hn & Hv & Ht & Hall) Hlt.
  assert (Hv3 : length v = (TetrahedralMesh.nodeCount m * 3)%nat)
    by (unfold v; lia).
  destruct (gravity_loop_rd
              (TetFlipSimulator.gravity sim * TetFlipSimulator.timeStep sim)
              v (TetrahedralMesh.nodeCount m) n Hv3 Hlt) as (H0 & H1 & H2).
  split; [exact H0|]. split; [exact H1|]. split; [exact H2|].
  split; [done|]. split; [done|]. split; [done|].
  unfold TetrahedralMesh.wf.
  split; [exact Hn|]. split; [|split; [exact Ht|exact Hall]].
  unfold m', sim', TetFlipSimulator.applyBodyForces.
  cbn [TetFlipSimulator.mesh TetFlipSimulator.withMesh
       TetrahedralMesh.nodeVelocities TetrahedralMesh.setNodeVelocities
       TetrahedralMesh.nodeCount].
  rewrite foldl_length; [exact Hv|].
  intros a b. apply length_addAt.
Qed.

Lemma applyBodyForces_adds_gravity_witness :
  let v' := TetrahedralMesh.nodeVelocities
              (TetFlipSimulator.mesh
                 (TetFlipSimulator.applyBodyForces Examples.smallSim)) in
  Js.rd v' 4 = 0 + - Examples.c_9_8 * Examples.c_0_016.
Proof.
  refine (proj1 (proj2 (applyBodyForces_adds_gravity Examples.smallSim 1 _ _))).
  - exact unitCube_wf.
  - vm_compute. lia.
Defined.

(** ** Divergence of a uniform velocity field *)

Section UniformField.
Import Js TetrahedralMesh PressureSolver.

Lemma approximateDivergence_uniform positions (u : Qc * Qc * Qc) :
  approximateDivergence positions [ u; u; u; u ] = 0.
Proof.
  unfold approximateDivergence. destruct (denominators positions) as [[dx dy] dz].
  destruct u as [[ux uy] uz].
  cbn [lookup list_lookup from_option id].
  unfold Qcdiv. ring.
Qed.

Variables (m : TetrahedralMesh.t) (velocities : list Qc) (u : Qc * Qc * Qc).
Hypothesis mesh_wf : wf m.
Hypothesis uniform :
  forall n, (n < nodeCount m)%nat -> nodePosition velocities (N.of_nat n) = u.

Lemma tetVelocities_uniform t :
  (t < tetCount m)%nat -> tetVelocities m velocities t = [ u; u; u; u ].
Proof.
  intros Ht. unfold tetVelocities, getTetrahedron.
  cbn [fmap list_fmap].
  pose proof (fun i Hi => tet_index_valid m t i mesh_wf Ht Hi) as Hvalid.
  destruct (rdN_getTetrahedron (tetrahedra m) t) as (H0 & H1 & H2 & H3).
  assert (Hu : forall x, (N.to_nat x < nodeCount m)%nat ->
                         nodePosition velocities x = u).
  { intros x Hx. rewrite <- (N2Nat.id x). by apply uniform. }
  rewrite (Hu (rdN (tetrahedra m) (t * 4)))
    by (rewrite <- H0; apply Hvalid; lia).
  rewrite (Hu (rdN (tetrahedra m) (t * 4 + 1)))
    by (rewrite <- H1; apply Hvalid; lia).
  rewrite (Hu (rdN (tetrahedra m) (t * 4 + 2)))
    by (rewrite <- H2; apply Hvalid; lia).
  rewrite (Hu (rdN (tetrahedra m) (t * 4 + 3)))
    by (rewrite <- H3; apply Hvalid; lia).
  done.
Qed.

Lemma splat_zero tet divergence counts i :
  (splat 0 tet (divergence, counts) i).1 = divergence.
Proof.
  unfold splat. cbn [fst].
  apply (addAt_zero divergence (N.to_nat (rdN tet i))).
Qed.

Lemma assemble_uniform acc t :
  (t < tetCount m)%nat -> (assemble m velocities acc t).1 = acc.1.
Proof.
  intros Ht. unfold assemble, tetDivergence.
  rewrite tetVelocities_uniform by done.
  rewrite approximateDivergence_uniform.
  destruct acc as [d c]. cbn [seq foldl].
  repeat match goal with
         | |- context [splat 0 ?tet (?d', ?c') ?i] =>
             let E := fresh in
             pose proof (splat_zero tet d' c' i) as E;
             destruct (splat 0 tet (d', c') i) as [? ?];
             cbn [fst] in E; subst
         end.
  done.
Qed.

Lemma assemble_prefix_uniform acc (l : list nat) :
  Forall (fun t => (t < tetCount m)%nat) l ->
  (foldl (assemble m velocities) acc l).1 = acc.1.
Proof.
  revert acc. induction l as [|t l IH]; intros acc Hl; [done|].
  apply Forall_cons in Hl as [Ht Hl]. cbn [foldl].
  rewrite IH by done. by apply assemble_uniform.
Qed.

Lemma average_zero counts n (l : list nat) :
  foldl (average counts) (replicate n 0) l = replicate n 0.
Proof.
  induction l as [|i l IH]; [done|]. cbn [foldl].
  unfold average at 2. destruct (ltb 0 (rd counts i)); [|exact IH].
  rewrite rd_replicate. unfold Qcdiv. rewrite Qcmult_0_l.
  by rewrite wr_zero_replicate.
Qed.

Lemma computeDivergence_uniform_field divergence :
  computeDivergence m velocities divergence = replicate (length divergence) 0.
Proof.
  unfold computeDivergence.
  pose proof (assemble_prefix_uniform
                (replicate (length divergence) 0, replicate (nodeCount m) 0)
                (seq 0 (tetCount m))) as Hfst.
  destruct (foldl (assemble m velocities) _ _) as [d c].
  cbn [fst] in Hfst. rewrite Hfst.
  - apply average_zero.
  - apply Forall_forall. intros t Ht. apply elem_of_seq in Ht. lia.
Qed.

End UniformField.

(** On a mesh that satisfies the mesh invariant, the divergence computed
    for a velocity field that has the same velocity at every node is
    exactly [0] at every node, whatever the node positions are. *)
Theorem computeDivergence_uniform
    (m : TetrahedralMesh.t) (velocities divergence : list Qc) (u : Qc * Qc * Qc) :
  TetrahedralMesh.wf m ->
  (forall n, (n < TetrahedralMesh.nodeCount m)%nat ->
             TetrahedralMesh.nodePosition velocities (N.of_nat n) = u) ->
  PressureSolver.computeDivergence m velocities divergence
  = replicate (length divergence) 0.
Proof. intros Hwf Hu. by apply (computeDivergence_uniform_field m velocities u). Qed.

Lemma computeDivergence_uniform_witness :
  PressureSolver.computeDivergence Examples.unitCube (replicate 24 1) (replicate 8 1)
  = replicate 8 0.
Proof.
  apply (computeDivergence_uniform Examples.unitCube (replicate 24 1)
           (replicate 8 1) (1, 1, 1)).
  - exact unitCube_wf.
  - intros n Hn. vm_compute in Hn.
    do 8 (destruct n as [|n]; [vm_compute; reflexivity|]). lia.
Defined.

(** ** Vertex order of a tetrahedron *)

Section VertexOrder.
Import Js TetrahedralMesh.

Lemma volume_swap p0 p1 p2 p3 :
  tetrahedronVolume p1 p0 p2 p3 = - tetrahedronVolume p0 p1 p2 p3.
Proof.
  destruct p0 as [[x0 y0] z0], p1 as [[x1 y1] z1], p2 as [[x2 y2] z2],
           p3 as [[x3 y3] z3].
  unfold tetrahedronVolume. field. apply c_6_nonzero.
Qed.

Lemma volume_rotate p0 p1 p2 p3 :
  tetrahedronVolume p1 p2 p3 p0 = - tetrahedronVolume p0 p1 p2 p3.
Proof.
  destruct p0 as [[x0 y0] z0], p1 as [[x1 y1] z1], p2 as [[x2 y2] z2],
           p3 as [[x3 y3] z3].
  unfold tetrahedronVolume. field. apply c_6_nonzero.
Qed.

Lemma isDegenerate_swap p0 p1 p2 p3 :
  isDegenerate p1 p0 p2 p3 <-> isDegenerate p0 p1 p2 p3.
Proof. unfold isDegenerate. by rewrite volume_swap, Qcabs_opp. Qed.

Lemma isDegenerate_rotate p0 p1 p2 p3 :
  isDegenerate p1 p2 p3 p0 <-> isDegenerate p0 p1 p2 p3.
Proof. unfold isDegenerate. by rewrite volume_rotate, Qcabs_opp. Qed.

Lemma div_opp_opp (a b : Qc) : b ≠ 0 -> - a / - b = a / b.
Proof.
  intros Hb. field. split; [exact Hb|].
  intros H. apply Hb. rewrite <- (Qcopp_involutive b), H. ring.
Qed.

End VertexOrder.

(** The barycentric coordinates follow the vertices when the vertices of
    a tetrahedron are listed in another order, whatever the sign of the
    volume: exchanging the first two vertices exchanges the first two
    coordinates, and rotating the four vertices rotates the four
    coordinates.  (These two reorderings generate all of them.) *)
Theorem barycentric_vertex_order (p0 p1 p2 p3 p : Qc * Qc * Qc) :
  exists b0 b1 b2 b3,
    TetrahedralMesh.barycentric p0 p1 p2 p3 p = [ b0; b1; b2; b3 ] /\
    TetrahedralMesh.barycentric p1 p0 p2 p3 p = [ b1; b0; b2; b3 ] /\
    TetrahedralMesh.barycentric p1 p2 p3 p0 p = [ b1; b2; b3; b0 ].
Proof.
  destruct (isDegenerate_dec p0 p1 p2 p3) as [Hd|Hnd].
  - exists Js.c_0_25, Js.c_0_25, Js.c_0_25, Js.c_0_25.
    rewrite !barycentric_degenerate;
      [done|by apply isDegenerate_rotate|by apply isDegenerate_swap|done].
  - pose proof (nondegenerate_volume _ _ _ _ Hnd) as Hv.
    do 4 eexists.
    rewrite (barycentric_nondegenerate p0 p1 p2 p3) by done.
    rewrite (barycentric_nondegenerate p1 p0 p2 p3)
      by (by rewrite isDegenerate_swap).
    rewrite (barycentric_nondegenerate p1 p2 p3 p0)
      by (by rewrite isDegenerate_rotate).
    split; [reflexivity|]. split.
    + rewrite (volume_swap p0 p1 p2 p3).
      rewrite (volume_swap p0 p p2 p3), (volume_swap p p1 p2 p3).
      rewrite (volume_swap p0 p1 p p3), (volume_swap p0 p1 p2 p).
      by rewrite !div_opp_opp.
    + rewrite (volume_rotate p0 p1 p2 p3).
      rewrite (volume_rotate p0 p p2 p3), (volume_rotate p0 p1 p p3).
      rewrite (volume_rotate p0 p1 p2 p), (volume_rotate p p1 p2 p3).
      by rewrite !div_opp_opp.
Qed.

(** ** The pressure solve on a divergence-free field *)

Section ZeroField.
Import Js PressureSolver.

Lemma sum_of_zeros (f : N -> Qc) (ns : list N) :
  (forall n, f n = 0) -> foldr Qcplus 0 (f <$> ns) = 0.
Proof.
  intros Hf. induction ns as [|n ns IH]; [done|].
  cbn [fmap list_fmap foldr]. rewrite Hf, IH. ring.
Qed.

Lemma jacobiStep_zero m n :
  jacobiStep m (replicate n 0) (replicate n 0) = replicate n 0.
Proof.
  apply list_eq. intros i. unfold jacobiStep. rewrite list_lookup_imap.
  destruct (replicate n 0 !! i) as [x|] eqn:E; [|done].
  apply lookup_replicate in E as [-> Hi]. cbn [fmap option_fmap option_map].
  f_equal. destruct (getNeighbors m i) as [|a ns]; [done|].
  rewrite sum_of_zeros by (intros; apply rd_replicate).
  rewrite rd_replicate. unfold Qcdiv. ring.
Qed.

Lemma converged_same (s : PressureSolver.t) n pressure :
  0 < tolerance s -> converged s n pressure pressure.
Proof.
  intros Htol i Hi.
  replace (rd pressure i - rd pressure i) with 0 by ring. exact Htol.
Qed.

End ZeroField.

(** When the divergence is zero at every node and the pressure starts at
    zero, as it does in [solve], the solver returns the zero pressure
    after exactly one pass, for every mesh and time step. *)
Theorem conjugateGradient_zero_divergence (m : TetrahedralMesh.t) (dt : Qc) :
  let zeros := replicate (TetrahedralMesh.nodeCount m) 0 in
  PressureSolver.conjugateGradient PressureSolver.new m zeros zeros dt
  = Js.ret (zeros, 1%nat).
Proof.
  cbv zeta. unfold PressureSolver.conjugateGradient.
  rewrite scaledRhs_scales by apply length_replicate.
  rewrite fmap_replicate, Qcmult_0_l.
  change (PressureSolver.maxIterations PressureSolver.new) with 50%nat.
  cbn [PressureSolver.iterate].
  rewrite typedSet_self, bind_ret.
  rewrite sweep_jacobiStep by apply length_replicate.
  rewrite jacobiStep_zero.
  rewrite (proj2 (maxDiff_converged PressureSolver.new _ _ _ eq_refl));
    [reflexivity|].
  by apply converged_same.
Qed.

(** ** P2G scatters every slot into tetrahedron 0 *)

Section ScatterIntoFirst.
Import Js TetrahedralMesh TetFlipSimulator.

Lemma rd_addAt a i v j :
  (i < length a)%nat ->
  rd (addAt a i v) j = if decide (i = j) then rd a j + v else rd a j.
Proof.
  intros Hi. unfold addAt. destruct (decide (i = j)) as [->|Hne].
  - by rewrite rd_wr_eq.
  - by rewrite rd_wr_ne.
Qed.

Lemma volume_same (p : Qc * Qc * Qc) : tetrahedronVolume p p p p = 0.
Proof.
  destruct p as [[x y] z]. unfold tetrahedronVolume. field. apply c_6_nonzero.
Qed.

Lemma barycentric_same (p q : Qc * Qc * Qc) :
  barycentric p p p p q = [ c_0_25; c_0_25; c_0_25; c_0_25 ].
Proof.
  apply barycentric_degenerate. unfold isDegenerate.
  rewrite volume_same. reflexivity.
Qed.

Lemma velocitySum_S velocities k c :
  velocitySum velocities (S k) c
  = velocitySum velocities k c + rd velocities (k * 3 + c).
Proof.
  unfold velocitySum. rewrite seq_S, fmap_app, foldr_app.
  cbn [fmap list_fmap foldr]. rewrite Nat.add_0_l, Qcplus_0_r.
  generalize (rd velocities (k * 3 + c)). intros x.
  induction (seq 0 k) as [|s l IH]; cbn [fmap list_fmap foldr]; [ring|].
  rewrite IH. ring.
Qed.

Variables (tets : list N) (tetCount a b c d nodeCount : nat).
Hypothesis first_tet :
  getTetrahedron tets 0 = [ N.of_nat a; N.of_nat b; N.of_nat c; N.of_nat d ].
Hypothesis distinct : a ≠ b /\ a ≠ c /\ a ≠ d /\ b ≠ c /\ b ≠ d /\ c ≠ d.
Hypothesis valid :
  (a < nodeCount /\ b < nodeCount /\ c < nodeCount /\ d < nodeCount)%nat.
Hypothesis some_tet : (1 <= tetCount)%nat.

Lemma nodePosition_of_nat ns n :
  nodePosition ns (N.of_nat n) = (rd ns (n * 3 + 0), rd ns (n * 3 + 1), rd ns (n * 3 + 2)).
Proof.
  unfold nodePosition.
  replace (N.to_nat (N.of_nat n * 3)) with (n * 3)%nat by lia.
  by rewrite Nat.add_0_r.
Qed.

(** In a scattered state tetrahedron 0 has four equal vertices, so every
    point is located in it, with the weights [0.25]. *)
Lemma scattered_locates total k acc x y z :
  scattered a b c d nodeCount total k acc ->
  findContainingTetrahedron acc.1 tets tetCount x y z = 0%Z /\
  computeBarycentricCoordinates acc.1 tets 0 x y z
  = [ c_0_25; c_0_25; c_0_25; c_0_25 ].
Proof.
  intros Hsc. destruct total as [[tx ty] tz]. destruct Hsc as (_ & _ & Hn).
  destruct valid as (Ha & Hb & Hc & Hd).
  assert (Hpos : forall n, (n < nodeCount)%nat -> (n = a \/ n = b \/ n = c \/ n = d) ->
                   nodePosition acc.1 (N.of_nat n)
                   = (c_0_25 * tx, c_0_25 * ty, c_0_25 * tz)).
  { intros n Hlt Hon. rewrite nodePosition_of_nat.
    destruct (Hn n Hlt) as (H0 & H1 & H2 & _).
    rewrite bool_decide_eq_true_2 in H0, H1, H2 by done. by rewrite H0, H1, H2. }
  assert (Hbary : computeBarycentricCoordinates acc.1 tets 0 x y z
                  = [ c_0_25; c_0_25; c_0_25; c_0_25 ]).
  { unfold computeBarycentricCoordinates. rewrite first_tet.
    change (rdN [N.of_nat a; N.of_nat b; N.of_nat c; N.of_nat d] 0) with (N.of_nat a).
    change (rdN [N.of_nat a; N.of_nat b; N.of_nat c; N.of_nat d] 1) with (N.of_nat b).
    change (rdN [N.of_nat a; N.of_nat b; N.of_nat c; N.of_nat d] 2) with (N.of_nat c).
    change (rdN [N.of_nat a; N.of_nat b; N.of_nat c; N.of_nat d] 3) with (N.of_nat d).
    rewrite !Hpos by tauto. apply barycentric_same. }
  split; [|exact Hbary].
  unfold findContainingTetrahedron. destruct tetCount as [|r]; [lia|].
  cbn [scanFrom]. rewrite Hbary. reflexivity.
Qed.

End ScatterIntoFirst.

Section ScatterStep.
Import Js TetrahedralMesh TetFlipSimulator.

(** One pass of the innermost loop, for a vertex that is node [x]. *)
Lemma scatter_at vx vy vz tet bary ns ws i x nodeCount :
  rdN tet i = N.of_nat x -> (x < nodeCount)%nat ->
  length ns = (nodeCount * 3)%nat -> length ws = nodeCount ->
  let acc' := scatter vx vy vz tet bary (ns, ws) i in
  length acc'.1 = (nodeCount * 3)%nat /\
  length acc'.2 = nodeCount /\
  forall n,
    rd acc'.1 (n * 3 + 0)
      = (if decide (x = n) then rd ns (n * 3 + 0) + rd bary i * vx
         else rd ns (n * 3 + 0)) /\
    rd acc'.1 (n * 3 + 1)
      = (if decide (x = n) then rd ns (n * 3 + 1) + rd bary i * vy
         else rd ns (n * 3 + 1)) /\
    rd acc'.1 (n * 3 + 2)
      = (if decide (x = n) then rd ns (n * 3 + 2) + rd bary i * vz
         else rd ns (n * 3 + 2)) /\
    rd acc'.2 n = (if decide (x = n) then rd ws n + rd bary i else rd ws n).
Proof.
  intros Htet Hx Hns Hws acc'. unfold acc', scatter. rewrite Htet.
  replace (N.to_nat (N.of_nat x * 3)) with (x * 3)%nat by lia.
  rewrite Nat2N.id. cbn [fst snd].
  split; [by rewrite !length_addAt|]. split; [by rewrite length_addAt|].
  intros n.
  rewrite !rd_addAt by (rewrite ?length_addAt; lia).
  destruct (decide (x = n)) as [->|Hne].
  - repeat first [rewrite decide_True by lia | rewrite decide_False by lia]. done.
  - repeat (rewrite decide_False by lia). done.
Qed.

Variables (tets : list N) (a b c d nodeCount : nat).
Hypothesis first_tet :
  getTetrahedron tets 0 = [ N.of_nat a; N.of_nat b; N.of_nat c; N.of_nat d ].
Hypothesis distinct : a ≠ b /\ a ≠ c /\ a ≠ d /\ b ≠ c /\ b ≠ d /\ c ≠ d.
Hypothesis valid :
  (a < nodeCount /\ b < nodeCount /\ c < nodeCount /\ d < nodeCount)%nat.

Lemma scatter_all vx vy vz tx ty tz k acc :
  scattered a b c d nodeCount (tx, ty, tz) k acc ->
  scattered a b c d nodeCount (tx + vx, ty + vy, tz + vz) (k + 1)
    (foldl (scatter vx vy vz (getTetrahedron tets 0)
                    [ c_0_25; c_0_25; c_0_25; c_0_25 ])
           acc (seq 0 4)).
Proof.
  intros (Hns & Hws & Hn). destruct acc as [ns ws]. cbn [fst snd] in *.
  destruct valid as (Ha & Hb & Hc & Hd).
  destruct distinct as (Hab & Hac & Had & Hbc & Hbd & Hcd).
  rewrite first_tet. cbn [seq foldl].
  set (tet := [N.of_nat a; N.of_nat b; N.of_nat c; N.of_nat d]).
  set (bary := [c_0_25; c_0_25; c_0_25; c_0_25]).
  destruct (scatter_at vx vy vz tet bary ns ws 0 a nodeCount eq_refl Ha Hns Hws)
    as (L1 & W1 & R1).
  destruct (scatter vx vy vz tet bary (ns, ws) 0) as [ns1 ws1].
  cbn [fst snd] in *.
  destruct (scatter_at vx vy vz tet bary ns1 ws1 1 b nodeCount eq_refl Hb L1 W1)
    as (L2 & W2 & R2).
  destruct (scatter vx vy vz tet bary (ns1, ws1) 1) as [ns2 ws2].
  cbn [fst snd] in *.
  destruct (scatter_at vx vy vz tet bary ns2 ws2 2 c nodeCount eq_refl Hc L2 W2)
    as (L3 & W3 & R3).
  destruct (scatter vx vy vz tet bary (ns2, ws2) 2) as [ns3 ws3].
  cbn [fst snd] in *.
  destruct (scatter_at vx vy vz tet bary ns3 ws3 3 d nodeCount eq_refl Hd L3 W3)
    as (L4 & W4 & R4).
  destruct (scatter vx vy vz tet bary (ns3, ws3) 3) as [ns4 ws4].
  cbn [fst snd] in *.
  change (rd bary 0) with c_0_25 in R1. change (rd bary 1) with c_0_25 in R2.
  change (rd bary 2) with c_0_25 in R3. change (rd bary 3) with c_0_25 in R4.
  split; [exact L4|]. split; [exact W4|].
  intros n Hlt. cbv zeta. cbn [fst snd].
  destruct (Hn n Hlt) as (N0 & N1 & N2 & NW). cbv zeta in N0, N1, N2, NW.
  destruct (R1 n) as (A0 & A1 & A2 & AW). destruct (R2 n) as (B0 & B1 & B2 & BW).
  destruct (R3 n) as (C0 & C1 & C2 & CW). destruct (R4 n) as (D0 & D1 & D2 & DW).
  rewrite D0, D1, D2, DW, C0, C1, C2, CW, B0, B1, B2, BW, A0, A1, A2, AW,
          N0, N1, N2, NW.
  destruct (decide (a = n)) as [<-|Hna];
    [|destruct (decide (b = n)) as [<-|Hnb];
      [|destruct (decide (c = n)) as [<-|Hnc];
        [|destruct (decide (d = n)) as [<-|Hnd]]]].
  - rewrite bool_decide_eq_true_2 by tauto.
    rewrite !(decide_False (P := _ = a)) by done. repeat split; ring.
  - rewrite bool_decide_eq_true_2 by tauto.
    rewrite !(decide_False (P := _ = b)) by done. repeat split; ring.
  - rewrite bool_decide_eq_true_2 by tauto.
    rewrite !(decide_False (P := _ = c)) by done. repeat split; ring.
  - rewrite bool_decide_eq_true_2 by tauto. repeat split; ring.
  - rewrite bool_decide_eq_false_2 by (intros [?|[?|[?|?]]]; congruence).
    done.
Qed.

End ScatterStep.

Section ScatterLoop.
Import Js TetrahedralMesh TetFlipSimulator.

Variables (tets : list N) (tetCount a b c d nodeCount : nat).
Variables (positions velocities : list Qc).
Hypothesis first_tet :
  getTetrahedron tets 0 = [ N.of_nat a; N.of_nat b; N.of_nat c; N.of_nat d ].
Hypothesis distinct : a ≠ b /\ a ≠ c /\ a ≠ d /\ b ≠ c /\ b ≠ d /\ c ≠ d.
Hypothesis valid :
  (a < nodeCount /\ b < nodeCount /\ c < nodeCount /\ d < nodeCount)%nat.
Hypothesis some_tet : (1 <= tetCount)%nat.

Lemma of_nat_S k : of_nat (S k) = of_nat k + 1.
Proof.
  unfold of_nat. rewrite Nat2Z.inj_succ, <- Z.add_1_r, Z2Qc_inj_add.
  by rewrite Z2Qc_inj_1.
Qed.

Lemma p2gParticle_scattered acc s tx ty tz k :
  scattered a b c d nodeCount (tx, ty, tz) k acc ->
  scattered a b c d nodeCount
    (tx + rd velocities (s * 3 + 0), ty + rd velocities (s * 3 + 1),
     tz + rd velocities (s * 3 + 2))
    (k + 1)
    (p2gParticle tets tetCount positions velocities acc (s * 3)).
Proof.
  intros Hsc. unfold p2gParticle.
  destruct (scattered_locates tets tetCount a b c d nodeCount
              first_tet distinct valid some_tet (tx, ty, tz) k acc
              (rd positions (s * 3 + 0)) (rd positions (s * 3 + 1))
              (rd positions (s * 3 + 2)) Hsc) as [-> Hbary].
  rewrite decide_True by lia. change (Z.to_nat 0) with 0%nat.
  rewrite Hbary. by apply scatter_all.
Qed.

Lemma p2g_prefix_scattered n : forall s0 acc,
  scattered a b c d nodeCount
    (velocitySum velocities s0 0, velocitySum velocities s0 1,
     velocitySum velocities s0 2) (of_nat s0) acc ->
  scattered a b c d nodeCount
    (velocitySum velocities (s0 + n) 0, velocitySum velocities (s0 + n) 1,
     velocitySum velocities (s0 + n) 2) (of_nat (s0 + n))
    (foldl (p2gParticle tets tetCount positions velocities) acc
           ((fun s => s * 3)%nat <$> seq s0 n)).
Proof.
  induction n as [|n IH]; intros s0 acc Hsc.
  - rewrite Nat.add_0_r. exact Hsc.
  - cbn [seq fmap list_fmap foldl].
    replace (s0 + S n)%nat with (S s0 + n)%nat by lia.
    apply IH. rewrite !velocitySum_S, of_nat_S.
    by apply p2gParticle_scattered.
Qed.

End ScatterLoop.

Section Normalisation.
Import Js TetFlipSimulator.

Lemma lookup_divAt a i v j :
  divAt a i v !! j
  = if decide (i = j) then (fun x => x / v) <$> a !! j else a !! j.
Proof.
  unfold divAt. rewrite lookup_wr. destruct (decide (i = j)) as [->|]; [|done].
  unfold rd. by destruct (a !! j).
Qed.

Variable weights : list Qc.

Lemma normalizeNode_other ns s s' :
  s ≠ s' -> slot (normalizeNode weights ns s') s = slot ns s.
Proof.
  intros Hne. unfold normalizeNode. destruct (ltb 0 (rd weights s')); [|done].
  unfold slot. rewrite !lookup_divAt.
  repeat (rewrite decide_False by lia). done.
Qed.

Lemma normalizeNode_local ns ns' s :
  slot ns s = slot ns' s ->
  slot (normalizeNode weights ns s) s = slot (normalizeNode weights ns' s) s.
Proof.
  intros Hs. unfold normalizeNode. destruct (ltb 0 (rd weights s)); [|done].
  unfold slot in *. rewrite !lookup_divAt. injection Hs as -> -> ->. done.
Qed.

Lemma normalize_by_offsets ns (l : list nat) :
  foldl (normalizeNode weights) ns l
  = foldl (fun st p => normalizeNode weights st (p / 3)) ns
          ((fun s => s * 3)%nat <$> l).
Proof.
  revert ns. induction l as [|s l IH]; intros ns; [done|].
  cbn [fmap list_fmap foldl]. rewrite Nat.div_mul by lia. apply IH.
Qed.

Lemma normalize_loop_slot ns n s :
  (s < n)%nat ->
  slot (foldl (normalizeNode weights) ns (seq 0 n)) s
  = slot (normalizeNode weights ns s) s.
Proof.
  intros Hs. rewrite normalize_by_offsets.
  rewrite (slot_loop_from slot (fun st p => normalizeNode weights st (p / 3))).
  - rewrite decide_True by lia. by rewrite Nat.div_mul by lia.
  - intros st x y Hxy. rewrite Nat.div_mul by lia. by apply normalizeNode_other.
  - intros st st' x Hobs. rewrite Nat.div_mul by lia. by apply normalizeNode_local.
Qed.

Lemma normalizeNode_rd ns n :
  (n * 3 + 2 < length ns)%nat ->
  let q x := if ltb 0 (rd weights n) then x / rd weights n else x in
  rd (normalizeNode weights ns n) (n * 3 + 0) = q (rd ns (n * 3 + 0)) /\
  rd (normalizeNode weights ns n) (n * 3 + 1) = q (rd ns (n * 3 + 1)) /\
  rd (normalizeNode weights ns n) (n * 3 + 2) = q (rd ns (n * 3 + 2)).
Proof.
  intros Hn q. unfold q, normalizeNode, divAt.
  destruct (ltb 0 (rd weights n)); [|done].
  split; [|split].
  - rewrite rd_wr_ne by lia. rewrite rd_wr_ne by lia. by rewrite rd_wr_eq by lia.
  - rewrite rd_wr_ne by lia. rewrite rd_wr_eq by (rewrite length_wr; lia).
    by rewrite rd_wr_ne by lia.
  - rewrite rd_wr_eq by (rewrite !length_wr; lia).
    rewrite rd_wr_ne by lia. by rewrite rd_wr_ne by lia.
Qed.

End Normalisation.

Section MeanVelocity.
Import Js.

Lemma div3 k : ((k * 3 + 2) / 3 = k)%nat.
Proof. rewrite Nat.div_add_l by lia. change (2 / 3)%nat with 0%nat. lia. Qed.

Lemma of_nat_pos k : (1 <= k)%nat -> 0 < of_nat k.
Proof.
  intros Hk. unfold of_nat. rewrite <- Z2Qc_inj_0.
  apply (proj1 (Z2Qc_inj_lt 0 (Z.of_nat k))). lia.
Qed.

Lemma quarter_pos (x : Qc) : 0 < x -> 0 < c_0_25 * x.
Proof.
  intros Hx. rewrite <- (Qcmult_0_l x) at 1. apply Qcmult_lt_compat_r; [done|].
  reflexivity.
Qed.

Lemma quarter_cancel (x y : Qc) : y ≠ 0 -> c_0_25 * x / (c_0_25 * y) = x / y.
Proof.
  intros Hy. field. split; [exact Hy|]. compute_done.
Qed.

End MeanVelocity.

(** ** All capacity slots, and where P2G puts them *)

Section Dilution.
Import Js TetrahedralMesh TetFlipSimulator.




End Dilution.




(** What [particlesToMesh] computes.  On a mesh that satisfies the mesh
    invariant and whose tetrahedron 0 has four distinct nodes, with an
    initialized particle set of capacity at least one: since the node
    array the location query reads has just been zeroed, every slot of
    the buffers is located in tetrahedron 0 with weights [0.25], whatever
    its position.  Afterwards each node of tetrahedron 0 holds, in the
    position array and in the velocity array alike, the sum of all slot
    velocities divided by the capacity, and every other node holds
    zeros. *)
Theorem particlesToMesh_mean_velocity (sim : TetFlipSimulator.t) (a b c d : nat) :
  let m := TetFlipSimulator.mesh sim in
  let ps := TetFlipSimulator.particles sim in
  let cap := ParticleSystem.maxParticles ps in
  let vel := ParticleSystem.velocities ps in
  TetrahedralMesh.wf m -> ParticleSystem.wf ps ->
  (1 <= cap)%nat -> (1 <= TetrahedralMesh.tetCount m)%nat ->
  TetrahedralMesh.getTetrahedron (TetrahedralMesh.tetrahedra m) 0
    = [ N.of_nat a; N.of_nat b; N.of_nat c; N.of_nat d ] ->
  a ≠ b /\ a ≠ c /\ a ≠ d /\ b ≠ c /\ b ≠ d /\ c ≠ d ->
  exists sim',
    TetFlipSimulator.particlesToMesh sim = Js.ret sim' /\
    TetrahedralMesh.nodeVelocities (TetFlipSimulator.mesh sim')
      = TetrahedralMesh.nodes (TetFlipSimulator.mesh sim') /\
    forall n, (n < TetrahedralMesh.nodeCount m)%nat ->
      let on := bool_decide (n = a \/ n = b \/ n = c \/ n = d) in
      let mean k := TetFlipSimulator.velocitySum vel cap k / Js.of_nat cap in
      let ns' := TetrahedralMesh.nodes (TetFlipSimulator.mesh sim') in
      Js.rd ns' (n * 3 + 0) = (if on then mean 0%nat else 0) /\
      Js.rd ns' (n * 3 + 1) = (if on then mean 1%nat else 0) /\
      Js.rd ns' (n * 3 + 2) = (if on then mean 2%nat else 0).
Proof.
  intros m ps cap vel Hwf [Hp Hv] Hcap Htc Hfirst Hdist.
  assert (Hvalid : (a < TetrahedralMesh.nodeCount m /\ b < TetrahedralMesh.nodeCount m /\
                    c < TetrahedralMesh.nodeCount m /\ d < TetrahedralMesh.nodeCount m)%nat).
  { pose proof (fun i Hi => tet_index_valid m 0 i Hwf Htc Hi) as Hv4.
    rewrite Hfirst in Hv4.
    pose proof (Hv4 0%nat) as H0. pose proof (Hv4 1%nat) as H1.
    pose proof (Hv4 2%nat) as H2. pose proof (Hv4 3%nat) as H3.
    cbn [Js.rdN lookup list_lookup from_option id] in H0, H1, H2, H3.
    rewrite Nat2N.id in H0, H1, H2, H3. lia. }
  destruct Hwf as (Hnodes & _).
  unfold TetFlipSimulator.particlesToMesh, TetrahedralMesh.getNodes.
  cbv zeta. fold m ps.
  rewrite resetNodes_zero.
  assert (E : (length (replicate (length (TetrahedralMesh.nodes m)) (Q2Qc 0)) / 3
               = TetrahedralMesh.nodeCount m)%nat).
  { rewrite length_replicate, Hnodes, Nat.mul_comm. by apply Nat.div_mul. }
  rewrite E, Hnodes.
  unfold TetFlipSimulator.p2gLoop, TetFlipSimulator.offsets.
  fold ps in Hp. rewrite Hp. fold cap. rewrite div3.
  pose proof (p2g_prefix_scattered (TetrahedralMesh.tetrahedra m)
                (TetrahedralMesh.tetCount m) a b c d (TetrahedralMesh.nodeCount m)
                (ParticleSystem.positions ps) vel Hfirst Hdist Hvalid Htc cap 0
                (replicate (3 * TetrahedralMesh.nodeCount m) 0,
                 replicate (TetrahedralMesh.nodeCount m) 0)) as Hloop.
  rewrite Nat.add_0_l in Hloop. fold vel.
  destruct (foldl _ _ _) as [ns ws].
  destruct Hloop as (Hlen1 & Hlen2 & Hn).
  { unfold TetFlipSimulator.scattered. cbn [fst snd].
    rewrite !length_replicate. split; [lia|]. split; [done|].
    intros n Hlt. cbv zeta. rewrite !rd_replicate.
    change (TetFlipSimulator.velocitySum vel 0 0) with (Q2Qc 0).
    change (TetFlipSimulator.velocitySum vel 0 1) with (Q2Qc 0).
    change (TetFlipSimulator.velocitySum vel 0 2) with (Q2Qc 0).
    replace (Js.of_nat 0) with (Q2Qc 0) by (symmetry; apply Z2Qc_inj_0).
    rewrite Qcmult_0_r.
    by destruct (bool_decide _). }
  cbn [fst snd] in Hlen1, Hlen2, Hn.
  eexists. split; [reflexivity|].
  cbn [TetFlipSimulator.mesh TetFlipSimulator.withMesh
       TetrahedralMesh.nodes TetrahedralMesh.nodeVelocities
       TetrahedralMesh.setNodeVelocities TetrahedralMesh.withNodes].
  split; [done|]. intros n Hlt. cbv zeta.
  unfold TetFlipSimulator.nodeIndices. rewrite Hlen1, div3.
  destruct (rd_of_slot _ _ _
              (normalize_loop_slot ws ns (TetrahedralMesh.nodeCount m) n Hlt))
    as (-> & -> & ->).
  destruct (normalizeNode_rd ws ns n) as (-> & -> & ->); [lia|].
  destruct (Hn n Hlt) as (-> & -> & -> & ->).
  pose proof (of_nat_pos cap Hcap) as Hpos.
  destruct (bool_decide (n = a \/ n = b \/ n = c \/ n = d)).
  - unfold Js.ltb. rewrite bool_decide_eq_true_2 by (by apply quarter_pos).
    rewrite !quarter_cancel by (by apply not_symmetry, Qclt_not_eq). done.
  - done.
Qed.

(** The small instance: tetrahedron 0 of the unit cube has the nodes
    0, 1, 3, 5; the slots move at [(1, 2, 0)] and [(0, 0, 0)], so node 1
    gets the [x] entry [1/2]. *)
Lemma particlesToMesh_mean_velocity_witness :
  exists sim',
    TetFlipSimulator.particlesToMesh Examples.smallSim = Js.ret sim' /\
    Js.rd (TetrahedralMesh.nodes (TetFlipSimulator.mesh sim')) 3 = Q2Qc (1 # 2).
Proof.
  destruct (particlesToMesh_mean_velocity Examples.smallSim 0 1 3 5)
    as (sim' & Hret & _ & Hn).
  - exact unitCube_wf.
  - split; reflexivity.
  - vm_compute. lia.
  - vm_compute. lia.
  - reflexivity.
  - repeat split; lia.
  - exists sim'. split; [exact Hret|].
    destruct (Hn 1%nat) as (H0 & _); [vm_compute; lia|].
    etransitivity; [exact H0|]. compute_done.
Defined.

(** ** The lattice of the constructed mesh *)

Section Lattice.
Import Js TetrahedralMesh.

(** Entry [c] of block [idx] of a concatenation of blocks of one size. *)
Lemma lookup_bind_block {A B} (f : A -> list B) (l : list A) n idx c :
  (forall x, length (f x) = n) -> (c < n)%nat ->
  (l ≫= f) !! (idx * n + c)%nat = l !! idx ≫= fun x => f x !! c.
Proof.
  intros Hf Hc. revert idx. induction l as [|x l IH]; intros idx.
  - by rewrite lookup_nil.
  - rewrite bind_cons. destruct idx as [|idx].
    + rewrite lookup_app_l by (rewrite Hf; lia). done.
    + rewrite lookup_app_r by (rewrite Hf; lia). rewrite Hf.
      replace (S idx * n + c - n)%nat with (idx * n + c)%nat by lia.
      apply IH.
Qed.

Lemma gridNodes_lookup dmin dx dy dz nx ny nz i j k c :
  (i <= nx)%nat -> (j <= ny)%nat -> (k <= nz)%nat -> (c < 3)%nat ->
  gridNodes dmin dx dy dz nx ny nz
    !! ((i + j * (nx + 1) + k * (nx + 1) * (ny + 1)) * 3 + c)%nat
  = gridNode dmin dx dy dz i j k !! c.
Proof.
  intros Hi Hj Hk Hc. unfold gridNodes.
  replace ((i + j * (nx + 1) + k * (nx + 1) * (ny + 1)) * 3 + c)%nat
    with (k * ((ny + 1) * ((nx + 1) * 3)) + (j * ((nx + 1) * 3) + (i * 3 + c)))%nat
    by lia.
  rewrite (lookup_bind_block _ _ ((ny + 1) * ((nx + 1) * 3))).
  - rewrite lookup_seq_lt by lia. cbn [mbind option_bind].
    rewrite (lookup_bind_block _ _ ((nx + 1) * 3)).
    + rewrite lookup_seq_lt by lia. cbn [mbind option_bind].
      rewrite (lookup_bind_block _ _ 3).
      * rewrite lookup_seq_lt by lia. done.
      * intros x. unfold gridNode. destruct dmin as [[? ?] ?]. reflexivity.
      * done.
    + intros y. rewrite (length_bind_const _ _ 3).
      * rewrite length_seq. lia.
      * intros x. unfold gridNode. destruct dmin as [[? ?] ?]. reflexivity.
    + nia.
  - intros z. rewrite (length_bind_const _ _ ((nx + 1) * 3)).
    + rewrite length_seq. lia.
    + intros y. rewrite (length_bind_const _ _ 3).
      * rewrite length_seq. lia.
      * intros x. unfold gridNode. destruct dmin as [[? ?] ?]. reflexivity.
  - nia.
Qed.

Lemma nodePosition_gridNodes dmin dx dy dz nx ny nz i j k :
  (i <= nx)%nat -> (j <= ny)%nat -> (k <= nz)%nat ->
  nodePosition (gridNodes dmin dx dy dz nx ny nz) (getNodeIndex nx ny i j k)
  = (dmin.1.1 + of_nat i * dx, dmin.1.2 + of_nat j * dy, dmin.2 + of_nat k * dz).
Proof.
  intros Hi Hj Hk. unfold nodePosition, getNodeIndex.
  replace (N.to_nat
             ((N.of_nat i + N.of_nat j * (N.of_nat nx + 1)
               + N.of_nat k * (N.of_nat nx + 1) * (N.of_nat ny + 1)) * 3))
    with ((i + j * (nx + 1) + k * (nx + 1) * (ny + 1)) * 3 + 0)%nat by lia.
  unfold rd.
  rewrite gridNodes_lookup by lia.
  replace ((i + j * (nx + 1) + k * (nx + 1) * (ny + 1)) * 3 + 0 + 1)%nat
    with ((i + j * (nx + 1) + k * (nx + 1) * (ny + 1)) * 3 + 1)%nat by lia.
  replace ((i + j * (nx + 1) + k * (nx + 1) * (ny + 1)) * 3 + 0 + 2)%nat
    with ((i + j * (nx + 1) + k * (nx + 1) * (ny + 1)) * 3 + 2)%nat by lia.
  rewrite !gridNodes_lookup by lia.
  unfold gridNode. destruct dmin as [[minx miny] minz]. reflexivity.
Qed.

End Lattice.

(** With at least one cell along every axis, the node of grid
    coordinates [(i, j, k)] is stored at index
    [i + j*(nx+1) + k*(nx+1)*(ny+1)] and lies at
    [domainMin + (i*dx, j*dy, k*dz)], where [dx], [dy], [dz] are the
    domain extents divided by the resolution; the node [(0,0,0)] is
    [domainMin] and, in exact arithmetic, the node [(nx,ny,nz)] is
    [domainMax]. *)
Theorem createRegularMesh_lattice
    (dmin dmax : Qc * Qc * Qc) (nx ny nz i j k : nat) :
  (1 <= nx)%nat -> (1 <= ny)%nat -> (1 <= nz)%nat ->
  (i <= nx)%nat -> (j <= ny)%nat -> (k <= nz)%nat ->
  let dx := (dmax.1.1 - dmin.1.1) / Js.of_nat nx in
  let dy := (dmax.1.2 - dmin.1.2) / Js.of_nat ny in
  let dz := (dmax.2 - dmin.2) / Js.of_nat nz in
  exists m,
    TetrahedralMesh.createRegularMesh dmin dmax nx ny nz = Js.ret m /\
    TetrahedralMesh.nodePosition (TetrahedralMesh.nodes m)
      (TetrahedralMesh.getNodeIndex nx ny i j k)
    = (dmin.1.1 + Js.of_nat i * dx, dmin.1.2 + Js.of_nat j * dy,
       dmin.2 + Js.of_nat k * dz) /\
    TetrahedralMesh.nodePosition (TetrahedralMesh.nodes m)
      (TetrahedralMesh.getNodeIndex nx ny 0 0 0) = dmin /\
    TetrahedralMesh.nodePosition (TetrahedralMesh.nodes m)
      (TetrahedralMesh.getNodeIndex nx ny nx ny nz) = dmax.
Proof.
  intros Hnx Hny Hnz Hi Hj Hk dx dy dz.
  destruct dmin as [[minx miny] minz] eqn:Emin, dmax as [[maxx maxy] maxz] eqn:Emax.
  unfold TetrahedralMesh.createRegularMesh.
  eexists. split; [reflexivity|]. cbn [TetrahedralMesh.nodes fst snd] in *.
  fold dx dy dz.
  rewrite !nodePosition_gridNodes by lia. cbn [fst snd].
  split; [done|]. split.
  - replace (Js.of_nat 0) with (Q2Qc 0) by (symmetry; apply Z2Qc_inj_0).
    f_equal; [f_equal|]; ring.
  - assert (Hne : forall n, (1 <= n)%nat -> Js.of_nat n ≠ 0).
    { intros n Hn. apply not_symmetry, Qclt_not_eq. by apply of_nat_pos. }
    unfold dx, dy, dz. f_equal; [f_equal|]; field; by apply Hne.
Qed.

(** The default mesh: the node [(8, 4, 0)] lies at [(1, 0, -1)]. *)
Lemma createRegularMesh_lattice_witness :
  exists m,
    TetrahedralMesh.createRegularMesh (- (1), - (1), - (1)) (1, 1, 1) 8 8 8
      = Js.ret m /\
    TetrahedralMesh.nodePosition (TetrahedralMesh.nodes m)
      (TetrahedralMesh.getNodeIndex 8 8 8 4 0)
    = (1, 0, - (1)).
Proof.
  destruct (createRegularMesh_lattice (- (1), - (1), - (1)) (1, 1, 1) 8 8 8 8 4 0)
    as (m & Hm & Hpos & _); [lia..|].
  exists m. split; [exact Hm|]. etransitivity; [exact Hpos|]. compute_done.
Defined.

(** ** The tetrahedra of the constructed mesh *)

Section CellVolumes.
Import Js TetrahedralMesh.




End CellVolumes.

Section CellVolumeValues.
Import Js TetrahedralMesh.


Variables (dmin : Qc * Qc * Qc) (dx dy dz : Qc) (nx ny nz i j k : nat).
Hypothesis small : (N.of_nat ((nx + 1) * (ny + 1) * (nz + 1)) <= 2 ^ 32)%N.
Hypothesis Hi : (i < nx)%nat.
Hypothesis Hj : (j < ny)%nat.
Hypothesis Hk : (k < nz)%nat.

Let ns := gridNodes dmin dx dy dz nx ny nz.
Let tets := toUint32 <$> gridTetrahedra nx ny nz.







End CellVolumeValues.


